(** * hashset: a chained hash set/map of caller-owned elements

    Shallow embedding of [hashset.c] / [hashset.h] and of the example
    element types of [test.c], followed by the properties of the
    specification that concern them.

    Modelling choices, all read off the C source:

    - An element is an opaque [void*]; the table only ever passes it to
      the two callbacks.  The development is parametric in the type [E]
      of elements; a [Hasher] is a function [E -> N] ([size_t]) and a
      [Comparator] a function [E -> E -> Z] ([int]).
    - A chain ([HashSetElements*], a [NULL]-terminated singly linked
      list of nodes) is the list of the elements its nodes hold, head
      first.  [NULL] is the empty list; a pointer into the middle of a
      chain is the suffix that starts at that node.
    - The bucket array [elements] is a list of chains indexed by
      position; [count] is kept as a separate field, as in the struct.
    - An element reference is never [NULL] (the callbacks dereference
      it); the [NULL] that [HashSetGet] and [HashSetIteratorNext]
      return for "absent" and "no more elements" is [None].
    - No [size_t] computation of [hashset.c] can wrap: [%] only
      shrinks its argument and [++bucket] runs under [bucket < count].
    - [HashSetDelete] only gives memory back and is not modelled. *)

From Equations Require Import Equations.
From Stdlib Require Import NArith ZArith Lia String.
From stdpp Require Import list.

Local Open Scope N_scope.

(** ** Data model ([hashset.h]) *)

(** A chain of [HashSetElements] nodes. *)
Abbreviation HashSetElements E := (list E) (only parsing).

Section Model.

Context {E : Type}.

Definition Hasher : Type := E -> N.
Definition Comparator : Type := E -> E -> Z.


Record HashSet : Type := mkHashSet {
  count : N;
  elements : list (HashSetElements E);
  hasher : Hasher;
  comparator : Comparator
}.

(** [set->elements[i]].  The C read is only defined for [i < count];
    outside the array the model reads an empty chain. *)
Definition elements_at (s : HashSet) (i : N) : HashSetElements E :=
  default [] (elements s !! N.to_nat i).

(** [set->elements[i] = es], every other field left as it is. *)
Definition elements_set (s : HashSet) (i : N) (es : HashSetElements E) : HashSet :=
  {| count := count s;
     elements := <[N.to_nat i := es]> (elements s);
     hasher := hasher s;
     comparator := comparator s |}.

(** [HashSetNew]: [calloc] gives [count] null bucket heads. *)
Definition HashSetNew (n : N) (h : Hasher) (c : Comparator) : HashSet :=
  {| count := n;
     elements := replicate (N.to_nat n) [];
     hasher := h;
     comparator := c |}.

(** ** Insert-or-update ([HashSetAdd]) *)

(** The [while (es)] loop of [HashSetAdd], entered with a non-null
    [es]: replace the element of the first matching node, or hang a new
    node behind the last one.  The [[]] case is the loop exit that the
    C code never reaches. *)
Fixpoint HashSetAdd_chain (cmp : Comparator) (element : E)
    (es : HashSetElements E) : HashSetElements E :=
  match es with
  | [] => []
  | x :: next =>
      if (cmp x element =? 0)%Z then element :: next
      else match next with
           | [] => x :: [element]
           | _ :: _ => x :: HashSetAdd_chain cmp element next
           end
  end.

Definition HashSetAdd (s : HashSet) (element : E) : HashSet :=
  let hash := hasher s element mod count s in
  match elements_at s hash with
  | [] => elements_set s hash [element]
  | es => elements_set s hash (HashSetAdd_chain (comparator s) element es)
  end.

(** ** Lookup ([HashSetGet], [HashSetContains]) *)

Fixpoint HashSetGet_chain (cmp : Comparator) (element : E)
    (es : HashSetElements E) : option E :=
  match es with
  | [] => None
  | x :: next =>
      if (cmp x element =? 0)%Z then Some x
      else HashSetGet_chain cmp element next
  end.

Definition HashSetGet (s : HashSet) (element : E) : option E :=
  let hash := hasher s element mod count s in
  HashSetGet_chain (comparator s) element (elements_at s hash).

Definition HashSetContains (s : HashSet) (element : E) : bool :=
  match HashSetGet s element with
  | Some _ => true
  | None => false
  end.

(** ** Removal ([HashSetRemove]) *)

(** The loop of [HashSetRemove]: the nodes already passed ([previous]
    and before) stay, the first matching node is unlinked, its
    successor taking its place behind [previous] or as bucket head. *)
Fixpoint HashSetRemove_chain (cmp : Comparator) (element : E)
    (es : HashSetElements E) : HashSetElements E :=
  match es with
  | [] => []
  | x :: next =>
      if (cmp x element =? 0)%Z then next
      else x :: HashSetRemove_chain cmp element next
  end.

Definition HashSetRemove (s : HashSet) (element : E) : HashSet :=
  let hash := hasher s element mod count s in
  elements_set s hash
    (HashSetRemove_chain (comparator s) element (elements_at s hash)).

(** ** Iteration ([HashSetIteratorNew], [HashSetIteratorNext]) *)

(** The cursor.  The [set] pointer of the C struct is the table that is
    handed to [HashSetIteratorNext] next to the cursor: the iterator
    reads whatever the table holds at the time of the call. *)
Record HashSetIterator : Type := mkHashSetIterator {
  bucket : N;
  element : HashSetElements E
}.

Definition HashSetIteratorNew (s : HashSet) : HashSetIterator :=
  {| bucket := 0; element := elements_at s 0 |}.

(** One call of [HashSetIteratorNext]: the yielded element ([None] for
    [NULL], the end of the sequence) and the cursor it leaves behind.
    The [while] loop is recursion on [count - bucket]. *)
Equations? HashSetIteratorNext (s : HashSet) (i : HashSetIterator)
    : option E * HashSetIterator
    by wf (N.to_nat (count s - bucket i)) lt :=
  HashSetIteratorNext s i with Logic.inspect (bucket i <? count s) := {
    | exist _ false _ => (None, i)
    | exist _ true Hlt with element i := {
      | cons e next => (Some e, {| bucket := bucket i; element := next |})
      | nil with Logic.inspect (bucket i + 1 =? count s) := {
        | exist _ true _ => (None, {| bucket := bucket i + 1; element := [] |})
        | exist _ false _ =>
            HashSetIteratorNext s
              {| bucket := bucket i + 1;
                 element := elements_at s (bucket i + 1) |} } } }.
Proof.
  apply N.ltb_lt in Hlt. cbn. lia.
Qed.

End Model.

(** ** The example element types of [test.c] *)

Module Items.

(** [struct Item]: the [index] is the key, the [word] the value. *)
Record Item : Type := mkItem {
  index : N;
  word : string
}.

Definition ItemHash (item : Item) : N := index item.

Definition ItemCompare (a b : Item) : Z :=
  if index a <? index b then (-1)%Z
  else if index b <? index a then 1%Z
  else 0%Z.

(** A probe: only the key part is filled in, as in
    [&(Item){.index = 1}]. *)
Definition probe (k : N) : Item := {| index := k; word := EmptyString |}.

Definition i1 : Item := {| index := 1; word := "hello" |}.
Definition i273 : Item := {| index := 273; word := "world" |}.
Definition i6000 : Item := {| index := 6000; word := "wow" |}.
Definition i1_new : Item := {| index := 1; word := "HELLO" |}.
Definition i11 : Item := {| index := 11; word := "eleven" |}.

(** The table of [TestAddUpdates] before the update. *)
Definition sample : HashSet :=
  HashSetAdd
    (HashSetAdd (HashSetAdd (HashSetNew 10 ItemHash ItemCompare) i1) i273)
    i6000.

(** A table with a collision: [1] and [11] share bucket 1 of 10. *)
Definition crowded : HashSet := HashSetAdd sample i11.

End Items.

(** ** Vocabulary of the specification *)

Section Vocabulary.

Context {E : Type}.

(** The bucket index every operation computes first. *)
Definition hash_of (s : HashSet) (element : E) : N :=
  hasher s element mod count s.

(** The states the C code is defined on: at least one bucket, and an
    array of exactly [count] bucket heads. *)
Definition HashSet_wf (s : @HashSet E) : Prop :=
  1 <= count s /\ length (elements s) = N.to_nat (count s).

(** The membership of the table, bucket by bucket, each chain from its
    head. *)
Definition all_elements (s : @HashSet E) : list E := concat (elements s).

(** The match test of the three chain walks:
    [comparator(es->element, element) == 0]. *)
Definition matches (cmp : @Comparator E) (probe x : E) : bool :=
  (cmp x probe =? 0)%Z.

(** How many of the elements of [l] match [probe]. *)
Definition key_count (cmp : @Comparator E) (probe : E) (l : list E) : nat :=
  length (List.filter (matches cmp probe) l).

(** What the callbacks owe the table: "compares equal" is an
    equivalence on elements (it is equality of key parts), and the
    hasher only looks at the key part. *)
Record key_laws (h : @Hasher E) (cmp : @Comparator E) : Prop := {
  cmp_refl : forall a, cmp a a = 0%Z;
  cmp_sym : forall a b, cmp a b = 0%Z -> cmp b a = 0%Z;
  cmp_trans : forall a b c, cmp a b = 0%Z -> cmp b c = 0%Z -> cmp a c = 0%Z;
  hash_compat : forall a b, cmp a b = 0%Z -> h a = h b
}.

(** No two nodes of a chain hold elements with equal keys. *)
Fixpoint chain_unique (cmp : @Comparator E) (es : list E) : Prop :=
  match es with
  | [] => True
  | x :: next => Forall (fun y => cmp x y <> 0%Z) next /\ chain_unique cmp next
  end.

(** Every element sits in the bucket its hash selects. *)
Definition placed (s : @HashSet E) : Prop :=
  forall (j : nat) (es : list E) (x : E),
    elements s !! j = Some es -> x ∈ es -> N.to_nat (hash_of s x) = j.

(** The table invariant of the data model. *)
Definition HashSet_inv (s : @HashSet E) : Prop :=
  HashSet_wf s /\
  key_laws (hasher s) (comparator s) /\
  placed s /\
  Forall (chain_unique (comparator s)) (elements s).

(** The tables a caller can build through the interface. *)
Inductive reachable (h : @Hasher E) (cmp : @Comparator E) : HashSet -> Prop :=
  | reach_new n : 1 <= n -> reachable h cmp (HashSetNew n h cmp)
  | reach_add s e : reachable h cmp s -> reachable h cmp (HashSetAdd s e)
  | reach_remove s e : reachable h cmp s -> reachable h cmp (HashSetRemove s e).

(** [n] successive calls of [HashSetIteratorNext] on an unchanged
    table: what each call returned, and the final cursor. *)
Fixpoint HashSetIteratorNext_n (n : nat) (s : HashSet) (i : HashSetIterator)
    : list (option E) * HashSetIterator :=
  match n with
  | O => ([], i)
  | S n' =>
      let (r, i') := HashSetIteratorNext s i in
      let (rs, i'') := HashSetIteratorNext_n n' s i' in
      (r :: rs, i'')
  end.

(** The elements a cursor has still to yield: the rest of its chain,
    then the chains of the buckets behind it. *)
Definition remaining (s : @HashSet E) (i : @HashSetIterator E) : list E :=
  element i ++ concat (drop (S (N.to_nat (bucket i))) (elements s)).

(** A cursor that has run off the bucket array. *)
Definition exhausted (s : @HashSet E) (i : @HashSetIterator E) : Prop :=
  count s <= bucket i.

(** The most recent element of an insertion sequence that matches a
    probe. *)
Definition latest_match (cmp : @Comparator E) (probe : E) (es : list E)
    : option E :=
  List.find (matches cmp probe) (rev es).

End Vocabulary.

(** ** The loops, one iteration at a time

    To count loop iterations, each [while] loop of [hashset.c] is given
    once more as a loop body acting on the loop's variables, run by a
    driver that stops with [None] when it is out of [fuel].  A cursor
    into a chain that is updated in place is the pair of the nodes
    already passed and the rest of the chain. *)

Section Loops.

Context {E : Type}.

Inductive step (S R : Type) : Type :=
  | Continue (st : S)
  | Return (r : R).

Arguments Continue {S R} st.
Arguments Return {S R} r.

Fixpoint while_loop {S R : Type} (body : S -> step S R) (fuel : nat) (st : S)
    : option R :=
  match fuel with
  | O => None
  | Datatypes.S fuel' =>
      match body st with
      | Return r => Some r
      | Continue st' => while_loop body fuel' st'
      end
  end.

Definition HashSetGet_body (cmp : @Comparator E) (element : E)
    (es : HashSetElements E) : step (HashSetElements E) (option E) :=
  match es with
  | [] => Return None
  | x :: next =>
      if (cmp x element =? 0)%Z then Return (Some x) else Continue next
  end.

Definition HashSetAdd_body (cmp : @Comparator E) (element : E)
    (st : list E * HashSetElements E)
    : step (list E * HashSetElements E) (HashSetElements E) :=
  let (passed, es) := st in
  match es with
  | [] => Return passed
  | x :: next =>
      if (cmp x element =? 0)%Z then Return (passed ++ element :: next)
      else match next with
           | [] => Return (passed ++ [x; element])
           | _ :: _ => Continue (passed ++ [x], next)
           end
  end.

Definition HashSetRemove_body (cmp : @Comparator E) (element : E)
    (st : list E * HashSetElements E)
    : step (list E * HashSetElements E) (HashSetElements E) :=
  let (passed, es) := st in
  match es with
  | [] => Return passed
  | x :: next =>
      if (cmp x element =? 0)%Z then Return (passed ++ next)
      else Continue (passed ++ [x], next)
  end.

Definition HashSetIteratorNext_body (s : @HashSet E) (i : HashSetIterator)
    : step HashSetIterator (option E * HashSetIterator) :=
  if bucket i <? count s then
    match element i with
    | x :: next => Return (Some x, {| bucket := bucket i; element := next |})
    | [] =>
        if bucket i + 1 =? count s
        then Return (None, {| bucket := bucket i + 1; element := [] |})
        else Continue {| bucket := bucket i + 1;
                         element := elements_at s (bucket i + 1) |}
    end
  else Return (None, i).

Definition HashSetGet_steps (fuel : nat) (s : HashSet) (element : E)
    : option (option E) :=
  while_loop (HashSetGet_body (comparator s) element) fuel
    (elements_at s (hash_of s element)).

Definition HashSetContains_steps (fuel : nat) (s : HashSet) (element : E)
    : option bool :=
  match HashSetGet_steps fuel s element with
  | Some (Some _) => Some true
  | Some None => Some false
  | None => None
  end.

Definition HashSetAdd_steps (fuel : nat) (s : HashSet) (element : E)
    : option HashSet :=
  let hash := hash_of s element in
  match elements_at s hash with
  | [] => Some (elements_set s hash [element])
  | es =>
      match while_loop (HashSetAdd_body (comparator s) element) fuel ([], es) with
      | Some es' => Some (elements_set s hash es')
      | None => None
      end
  end.

Definition HashSetRemove_steps (fuel : nat) (s : HashSet) (element : E)
    : option HashSet :=
  let hash := hash_of s element in
  match
    while_loop (HashSetRemove_body (comparator s) element) fuel
      ([], elements_at s hash)
  with
  | Some es' => Some (elements_set s hash es')
  | None => None
  end.

Definition HashSetIteratorNext_steps (fuel : nat) (s : HashSet)
    (i : HashSetIterator) : option (option E * HashSetIterator) :=
  while_loop (HashSetIteratorNext_body s) fuel i.

End Loops.

Arguments Continue {S R} st.
Arguments Return {S R} r.

(** ** Sequences of calls, and a list to compare the table with *)

Section Sequences.

Context {E : Type}.

(** A call that changes the table. *)
Inductive operation : Type :=
  | OpAdd (element : E)
  | OpRemove (element : E).

Definition apply_op (s : @HashSet E) (o : operation) : HashSet :=
  match o with
  | OpAdd element => HashSetAdd s element
  | OpRemove element => HashSetRemove s element
  end.

Definition run_ops (ops : list operation) (s : @HashSet E) : HashSet :=
  fold_left apply_op ops s.

(** The same calls on a plain list without buckets or hashing: an
    insertion drops every element of that key and puts the new one in
    front, a removal drops every element of that key, a lookup takes
    the first element of that key. *)
Definition model_add (cmp : @Comparator E) (e : E) (m : list E) : list E :=
  e :: List.filter (fun x => negb (matches cmp e x)) m.

Definition model_remove (cmp : @Comparator E) (e : E) (m : list E) : list E :=
  List.filter (fun x => negb (matches cmp e x)) m.

Definition model_get (cmp : @Comparator E) (p : E) (m : list E) : option E :=
  List.find (matches cmp p) m.

Definition model_op (cmp : @Comparator E) (m : list E) (o : operation)
    : list E :=
  match o with
  | OpAdd element => model_add cmp element m
  | OpRemove element => model_remove cmp element m
  end.

Definition run_model (cmp : @Comparator E) (ops : list operation) : list E :=
  fold_left (model_op cmp) ops [].

End Sequences.

(** ** Helpers of [util.c] and the other element types of [test.c]

    A C string is a [string] whose end stands for the terminating
    [NUL]; should the [string] hold a zero character, the C string
    ends there.  [size_t] has 64 bits. *)

Module Util.

Definition SIZE_MAX_plus_1 : N := 2 ^ 64.

(** Reduction of an integer to [size_t], as unsigned arithmetic and
    the cast [(size_t)x] do it. *)
Definition to_size_t (x : Z) : N := Z.to_N (x mod Z.of_N SIZE_MAX_plus_1).

(** The bytes of a C string as [unsigned char] values. *)
Definition uchar (c : Ascii.ascii) : N := Ascii.N_of_ascii c.

(** The loop of [StringHash], [h = prime * h + *p] with [prime = 31],
    started at hash value [h]. *)
Fixpoint StringHash_from (h : N) (p : string) : N :=
  match p with
  | EmptyString => h
  | String c rest =>
      if uchar c =? 0 then h
      else StringHash_from ((31 * h + uchar c) mod SIZE_MAX_plus_1) rest
  end.

Definition StringHash (key : string) : N := StringHash_from 0 key.

(** [strcmp] of the C library: the bytes are compared as
    [unsigned char] up to the first difference or the first [NUL];
    the result has the sign of the difference of the two bytes at
    which the comparison stops. *)
Fixpoint strcmp (a b : string) : Z :=
  match a, b with
  | EmptyString, EmptyString => 0%Z
  | EmptyString, String cb _ => (- Z.of_N (uchar cb))%Z
  | String ca _, EmptyString => Z.of_N (uchar ca)
  | String ca ra, String cb rb =>
      if uchar ca =? uchar cb
      then if uchar ca =? 0 then 0%Z else strcmp ra rb
      else (Z.of_N (uchar ca) - Z.of_N (uchar cb))%Z
  end.

Definition StringEquals (a b : string) : bool := (strcmp a b =? 0)%Z.

(** The characters of a C string: everything before the first [NUL]. *)
Fixpoint c_str (s : string) : list N :=
  match s with
  | EmptyString => []
  | String c rest => if uchar c =? 0 then [] else uchar c :: c_str rest
  end.

(** The polynomial [c0 * 31^(n-1) + ... + c(n-1)] in exact arithmetic,
    started at [h]. *)
Definition poly31 (h : N) (cs : list N) : N :=
  fold_left (fun acc c => 31 * acc + c) cs h.

End Util.

Module Words.

(** [struct Word] of [TestDictionary]: the [word] is the key. *)
Record Word : Type := mkWord {
  word : string;
  definition : string
}.

Definition WordHash (w : Word) : N := Util.StringHash (word w).

Definition WordCompare (a b : Word) : Z := Util.strcmp (word a) (word b).

End Words.

Module FileIDs.

(** [struct FileID]: [device] and [inode] form the key.  [dev_t] and
    [ino_t] are integer types of the platform; their values are
    integers here. *)
Record FileID : Type := mkFileID {
  device : Z;
  inode : Z;
  value : string
}.

(** [31U * (size_t)id->device * (size_t)id->inode], each product
    reduced to [size_t]. *)
Definition FileIDHasher (id : FileID) : N :=
  (31 * Util.to_size_t (device id) mod Util.SIZE_MAX_plus_1
   * Util.to_size_t (inode id)) mod Util.SIZE_MAX_plus_1.

Definition FileIDComparator (a b : FileID) : Z :=
  if (device a <? device b)%Z then (-1)%Z
  else if (device b <? device a)%Z then 1%Z
  else if (inode a <? inode b)%Z then (-1)%Z
  else if (inode b <? inode a)%Z then 1%Z
  else 0%Z.


End FileIDs.

(** * Properties *)

Section Properties.

Context {E : Type}.

Implicit Types (s : @HashSet E) (e p x y : E) (es l : list E).
Implicit Types (cmp : @Comparator E) (h : @Hasher E).

(** ** Reading and writing bucket heads *)

Lemma hash_of_lt s e : HashSet_wf s -> hash_of s e < count s.
Proof.
  intros [Hc _]. unfold hash_of. apply N.mod_lt. lia.
Qed.

Lemma hash_of_in_range s e :
  HashSet_wf s -> (N.to_nat (hash_of s e) < length (elements s))%nat.
Proof.
  intros Hwf. pose proof (hash_of_lt s e Hwf) as Hlt.
  destruct Hwf as [_ Hlen]. lia.
Qed.

Lemma elements_at_lookup s (i : N) es :
  elements s !! N.to_nat i = Some es -> elements_at s i = es.
Proof. unfold elements_at. intros ->. reflexivity. Qed.

Lemma elements_at_set_eq s (i : N) es :
  (N.to_nat i < length (elements s))%nat ->
  elements_at (elements_set s i es) i = es.
Proof.
  intros Hi. unfold elements_at, elements_set. cbn.
  rewrite list_lookup_insert_eq by exact Hi. reflexivity.
Qed.

Lemma elements_at_set_ne s (i j : N) es :
  i <> j -> elements_at (elements_set s i es) j = elements_at s j.
Proof.
  intros Hne. unfold elements_at, elements_set. cbn.
  rewrite list_lookup_insert_ne by lia. reflexivity.
Qed.

Lemma elements_set_same s (i : N) : elements_set s i (elements_at s i) = s.
Proof.
  destruct s as [n bs h c]. unfold elements_set, elements_at. cbn.
  f_equal.
  destruct (bs !! N.to_nat i) as [es|] eqn:Hi; cbn.
  - apply list_insert_id. exact Hi.
  - apply list_insert_ge. apply lookup_ge_None. exact Hi.
Qed.

Lemma elements_set_wf s (i : N) es :
  HashSet_wf s -> HashSet_wf (elements_set s i es).
Proof.
  intros [Hc Hlen]. split; cbn; [exact Hc|].
  rewrite length_insert. exact Hlen.
Qed.

(** ** The chain walks in closed form *)

Lemma chain_match_cases cmp e es :
  Forall (fun y => cmp y e <> 0%Z) es \/
  exists l1 x l2,
    es = l1 ++ x :: l2 /\ Forall (fun y => cmp y e <> 0%Z) l1 /\
    cmp x e = 0%Z.
Proof.
  induction es as [|y es IH].
  - left. constructor.
  - destruct (Z.eq_dec (cmp y e) 0%Z) as [Hy|Hy].
    + right. exists [], y, es. repeat split; [constructor | exact Hy].
    + destruct IH as [IH|(l1 & x & l2 & -> & Hl1 & Hx)].
      * left. constructor; assumption.
      * right. exists (y :: l1), x, l2.
        repeat split; [constructor; assumption | exact Hx].
Qed.

Lemma first_match_split cmp e es :
  Exists (fun y => cmp y e = 0%Z) es ->
  exists l1 x l2,
    es = l1 ++ x :: l2 /\ Forall (fun y => cmp y e <> 0%Z) l1 /\
    cmp x e = 0%Z.
Proof.
  intros Hex. destruct (chain_match_cases cmp e es) as [Hall|Hsplit].
  - exfalso. apply Exists_exists in Hex as (y & Hin & Hy).
    rewrite Forall_forall in Hall. exact (Hall y Hin Hy).
  - exact Hsplit.
Qed.

Lemma HashSetAdd_chain_replace cmp e l1 x l2 :
  Forall (fun y => cmp y e <> 0%Z) l1 -> cmp x e = 0%Z ->
  HashSetAdd_chain cmp e (l1 ++ x :: l2) = l1 ++ e :: l2.
Proof.
  intros Hl1 Hx. induction Hl1 as [|y l1 Hy _ IH]; cbn.
  - rewrite Hx. reflexivity.
  - apply Z.eqb_neq in Hy. rewrite Hy.
    destruct (l1 ++ x :: l2) as [|z r] eqn:Hr.
    + destruct l1; discriminate.
    + rewrite IH. reflexivity.
Qed.

Lemma HashSetAdd_chain_append cmp e es :
  es <> [] -> Forall (fun y => cmp y e <> 0%Z) es ->
  HashSetAdd_chain cmp e es = es ++ [e].
Proof.
  intros Hne Hall. induction Hall as [|y es Hy Hes IH]; [congruence|].
  cbn. apply Z.eqb_neq in Hy. rewrite Hy.
  destruct es as [|z r]; [reflexivity|].
  f_equal. apply IH. discriminate.
Qed.

Lemma HashSetGet_chain_hit cmp e l1 x l2 :
  Forall (fun y => cmp y e <> 0%Z) l1 -> cmp x e = 0%Z ->
  HashSetGet_chain cmp e (l1 ++ x :: l2) = Some x.
Proof.
  intros Hl1 Hx. induction Hl1 as [|y l1 Hy _ IH]; cbn.
  - rewrite Hx. reflexivity.
  - apply Z.eqb_neq in Hy. rewrite Hy. exact IH.
Qed.

Lemma HashSetGet_chain_miss cmp e es :
  Forall (fun y => cmp y e <> 0%Z) es -> HashSetGet_chain cmp e es = None.
Proof.
  induction 1 as [|y es Hy _ IH]; cbn; [reflexivity|].
  apply Z.eqb_neq in Hy. rewrite Hy. exact IH.
Qed.

Lemma HashSetRemove_chain_hit cmp e l1 x l2 :
  Forall (fun y => cmp y e <> 0%Z) l1 -> cmp x e = 0%Z ->
  HashSetRemove_chain cmp e (l1 ++ x :: l2) = l1 ++ l2.
Proof.
  intros Hl1 Hx. induction Hl1 as [|y l1 Hy _ IH]; cbn.
  - rewrite Hx. reflexivity.
  - apply Z.eqb_neq in Hy. rewrite Hy, IH. reflexivity.
Qed.

Lemma HashSetRemove_chain_miss cmp e es :
  Forall (fun y => cmp y e <> 0%Z) es -> HashSetRemove_chain cmp e es = es.
Proof.
  induction 1 as [|y es Hy _ IH]; cbn; [reflexivity|].
  apply Z.eqb_neq in Hy. rewrite Hy, IH. reflexivity.
Qed.

(** [HashSetAdd] writes one bucket head; which chain it writes there
    depends on whether the chain holds a match. *)
Lemma HashSetAdd_hit s e l1 x l2 :
  elements_at s (hash_of s e) = l1 ++ x :: l2 ->
  Forall (fun y => comparator s y e <> 0%Z) l1 ->
  comparator s x e = 0%Z ->
  HashSetAdd s e = elements_set s (hash_of s e) (l1 ++ e :: l2).
Proof.
  intros Hch Hl1 Hx. unfold HashSetAdd. fold (hash_of s e).
  rewrite <- (HashSetAdd_chain_replace (comparator s) e l1 x l2 Hl1 Hx).
  rewrite <- Hch. revert Hch.
  destruct (elements_at s (hash_of s e)) as [|z r]; intros Hch;
    [destruct l1; discriminate | reflexivity].
Qed.

Lemma HashSetAdd_miss s e :
  Forall (fun y => comparator s y e <> 0%Z) (elements_at s (hash_of s e)) ->
  HashSetAdd s e =
  elements_set s (hash_of s e) (elements_at s (hash_of s e) ++ [e]).
Proof.
  intros Hall. unfold HashSetAdd. fold (hash_of s e).
  destruct (elements_at s (hash_of s e)) as [|z r] eqn:Hch; [reflexivity|].
  rewrite HashSetAdd_chain_append; [reflexivity|discriminate|exact Hall].
Qed.

Lemma HashSetRemove_unfold s e :
  HashSetRemove s e =
  elements_set s (hash_of s e)
    (HashSetRemove_chain (comparator s) e (elements_at s (hash_of s e))).
Proof. reflexivity. Qed.

Lemma HashSetAdd_writes_one s e :
  exists es', HashSetAdd s e = elements_set s (hash_of s e) es'.
Proof.
  unfold HashSetAdd. fold (hash_of s e).
  destruct (elements_at s (hash_of s e)); eexists; reflexivity.
Qed.

(** ** The membership list around one bucket *)

Lemma all_elements_split s (i : N) :
  (N.to_nat i < length (elements s))%nat ->
  all_elements s =
  concat (take (N.to_nat i) (elements s)) ++ elements_at s i ++
  concat (drop (S (N.to_nat i)) (elements s)).
Proof.
  intros Hi. unfold all_elements, elements_at.
  destruct (lookup_lt_is_Some_2 _ _ Hi) as [es Hes]. rewrite Hes. cbn.
  rewrite <- (take_drop_middle _ _ _ Hes) at 1.
  rewrite concat_app. reflexivity.
Qed.

Lemma all_elements_set s (i : N) es :
  (N.to_nat i < length (elements s))%nat ->
  all_elements (elements_set s i es) =
  concat (take (N.to_nat i) (elements s)) ++ es ++
  concat (drop (S (N.to_nat i)) (elements s)).
Proof.
  intros Hi. unfold all_elements, elements_set. cbn.
  rewrite insert_take_drop by exact Hi.
  rewrite concat_app. reflexivity.
Qed.

Lemma all_elements_set_length s (i : N) es :
  (N.to_nat i < length (elements s))%nat ->
  (length (all_elements (elements_set s i es)) + length (elements_at s i) =
   length (all_elements s) + length es)%nat.
Proof.
  intros Hi. rewrite (all_elements_split s i Hi), (all_elements_set s i es Hi).
  rewrite !length_app. lia.
Qed.

Lemma elements_set_lookup_ne s (i : N) es (j : nat) :
  j <> N.to_nat i -> elements (elements_set s i es) !! j = elements s !! j.
Proof.
  intros Hne. cbn. apply list_lookup_insert_ne. congruence.
Qed.

(** ** Insert-or-update: the two outcomes *)

(** C4.  When the chain of the computed bucket already holds an element
    that compares equal to the new one, [HashSetAdd] overwrites the
    reference held by the first such node and does nothing else: the
    nodes before and behind it are the same, in the same order, the
    chain has the length it had, and so has the whole table. *)
Theorem HashSetAdd_replaces_match s e :
  HashSet_wf s ->
  Exists (fun y => comparator s y e = 0%Z) (elements_at s (hash_of s e)) ->
  exists l1 x l2,
    elements_at s (hash_of s e) = l1 ++ x :: l2 /\
    Forall (fun y => comparator s y e <> 0%Z) l1 /\
    comparator s x e = 0%Z /\
    elements_at (HashSetAdd s e) (hash_of s e) = l1 ++ e :: l2 /\
    length (elements_at (HashSetAdd s e) (hash_of s e)) =
      length (elements_at s (hash_of s e)) /\
    length (all_elements (HashSetAdd s e)) = length (all_elements s).
Proof.
  intros Hwf Hex.
  destruct (first_match_split _ _ _ Hex) as (l1 & x & l2 & Hch & Hl1 & Hx).
  pose proof (hash_of_in_range s e Hwf) as Hi.
  exists l1, x, l2.
  rewrite (HashSetAdd_hit s e l1 x l2 Hch Hl1 Hx).
  rewrite elements_at_set_eq by exact Hi.
  pose proof (all_elements_set_length s (hash_of s e) (l1 ++ e :: l2) Hi) as Hn.
  rewrite Hch in Hn. rewrite Hch.
  rewrite !length_app in Hn. cbn [length] in Hn.
  split; [reflexivity|]. split; [exact Hl1|]. split; [exact Hx|].
  split; [reflexivity|]. split.
  - rewrite !length_app. reflexivity.
  - lia.
Qed.

(** C5.  When no element of the computed bucket's chain compares equal
    to the new one, [HashSetAdd] hangs one new node holding it behind
    the last node of that chain (it is the only node if the bucket was
    empty), and every element stored before is found at the position
    of the chain it had. *)
Theorem HashSetAdd_appends_new s e :
  HashSet_wf s ->
  Forall (fun y => comparator s y e <> 0%Z) (elements_at s (hash_of s e)) ->
  elements_at (HashSetAdd s e) (hash_of s e) =
    elements_at s (hash_of s e) ++ [e] /\
  (elements_at s (hash_of s e) = [] ->
   elements_at (HashSetAdd s e) (hash_of s e) = [e]) /\
  length (all_elements (HashSetAdd s e)) = S (length (all_elements s)) /\
  forall (j k : nat) es x,
    elements s !! j = Some es -> es !! k = Some x ->
    exists es', elements (HashSetAdd s e) !! j = Some es' /\ es' !! k = Some x.
Proof.
  intros Hwf Hall.
  pose proof (hash_of_in_range s e Hwf) as Hi.
  rewrite (HashSetAdd_miss s e Hall).
  rewrite elements_at_set_eq by exact Hi.
  split; [reflexivity|]. split; [intros ->; reflexivity|]. split.
  - pose proof (all_elements_set_length s (hash_of s e)
                  (elements_at s (hash_of s e) ++ [e]) Hi) as Hn.
    rewrite length_app in Hn. cbn [length] in Hn. lia.
  - intros j k es x Hj Hk.
    destruct (decide (j = N.to_nat (hash_of s e))) as [->|Hne].
    + exists (es ++ [e]). split.
      * cbn. rewrite (elements_at_lookup _ _ _ Hj).
        apply list_lookup_insert_eq. exact Hi.
      * apply lookup_app_l_Some. exact Hk.
    + exists es. split; [|exact Hk].
      rewrite elements_set_lookup_ne by exact Hne. exact Hj.
Qed.

(** ** Removal of an absent key *)

(** C8.  When no element of the computed bucket's chain compares equal
    to the probe, [HashSetRemove] hands back the table it was given:
    same bucket count, same bucket array, same chains, same callbacks.
    There is no error result to report. *)
Theorem HashSetRemove_absent_noop s p :
  HashSet_wf s ->
  Forall (fun y => comparator s y p <> 0%Z) (elements_at s (hash_of s p)) ->
  HashSetRemove s p = s.
Proof.
  intros _ Hall. rewrite HashSetRemove_unfold.
  rewrite (HashSetRemove_chain_miss _ _ _ Hall).
  apply elements_set_same.
Qed.

(** ** Frame *)

(** C10.  [HashSetAdd] and [HashSetRemove] write at most the bucket head
    at index [hasher(element) % count]: every other slot of the bucket
    array holds the chain it held, the array has the length it had,
    and [count], [hasher] and [comparator] are the ones of the table
    before. *)
Theorem HashSetAdd_Remove_frame s e :
  HashSet_wf s ->
  let frame (s' : HashSet) :=
    count s' = count s /\ hasher s' = hasher s /\
    comparator s' = comparator s /\
    length (elements s') = length (elements s) /\
    forall j : nat,
      j <> N.to_nat (hasher s e mod count s) ->
      elements s' !! j = elements s !! j in
  frame (HashSetAdd s e) /\ frame (HashSetRemove s e).
Proof.
  intros _ frame.
  assert (Hset : forall es', frame (elements_set s (hash_of s e) es')).
  { intros es'. unfold frame. repeat split.
    - cbn. apply length_insert.
    - intros j Hj. apply elements_set_lookup_ne. exact Hj. }
  split.
  - destruct (HashSetAdd_writes_one s e) as [es' ->]. apply Hset.
  - rewrite HashSetRemove_unfold. apply Hset.
Qed.

(** ** The iterator, call by call *)

Lemma HashSetIteratorNext_eq s (i : HashSetIterator) :
  HashSetIteratorNext s i =
  if bucket i <? count s then
    match element i with
    | x :: next => (Some x, {| bucket := bucket i; element := next |})
    | [] =>
        if bucket i + 1 =? count s
        then (None, {| bucket := bucket i + 1; element := [] |})
        else HashSetIteratorNext s
               {| bucket := bucket i + 1;
                  element := elements_at s (bucket i + 1) |}
    end
  else (None, i).
Proof.
  funelim (HashSetIteratorNext s i);
    repeat match goal with
    | H : (_ <? _) = _ |- _ => rewrite H
    | H : (_ =? _) = _ |- _ => rewrite H
    | H : element _ = _ |- _ => rewrite H
    end; reflexivity.
Qed.

Lemma HashSetIteratorNext_exhausted s i :
  exhausted s i -> HashSetIteratorNext s i = (None, i).
Proof.
  unfold exhausted. intros Hge. rewrite HashSetIteratorNext_eq.
  destruct (N.ltb_spec (bucket i) (count s)); [lia|reflexivity].
Qed.

Lemma drop_S_lookup (bs : list (list E)) (n : nat) :
  (n < length bs)%nat ->
  concat (drop n bs) = default [] (bs !! n) ++ concat (drop (S n) bs).
Proof.
  intros Hn. destruct (lookup_lt_is_Some_2 _ _ Hn) as [es Hes].
  rewrite Hes. cbn. rewrite (drop_S _ _ _ Hes). reflexivity.
Qed.

(** One call on a live cursor: it yields the head of what remains, or
    reports the end when nothing remains and leaves the cursor
    exhausted. *)
Lemma HashSetIteratorNext_remaining s :
  HashSet_wf s ->
  forall (m : nat) (i : HashSetIterator),
    (N.to_nat (count s - bucket i) <= m)%nat ->
    bucket i < count s ->
    match remaining s i with
    | [] =>
        exists i', HashSetIteratorNext s i = (None, i') /\ exhausted s i'
    | x :: rest =>
        exists i', HashSetIteratorNext s i = (Some x, i') /\
                   bucket i' < count s /\ remaining s i' = rest
    end.
Proof.
  intros [Hc Hlen]. induction m as [|m IH]; intros i Hm Hlt; [lia|].
  rewrite HashSetIteratorNext_eq.
  destruct (N.ltb_spec (bucket i) (count s)) as [_|]; [|lia].
  unfold remaining at 1. destruct (element i) as [|x next] eqn:Hel.
  - destruct (N.eqb_spec (bucket i + 1) (count s)) as [Heq|Hne].
    + rewrite drop_ge by lia. cbn.
      eexists. split; [reflexivity|]. unfold exhausted. cbn. lia.
    + cbn [app].
      rewrite drop_S_lookup by lia.
      set (i1 := {| bucket := bucket i + 1;
                    element := elements_at s (bucket i + 1) |}).
      assert (Hrem : default [] (elements s !! S (N.to_nat (bucket i))) ++
                     concat (drop (S (S (N.to_nat (bucket i)))) (elements s))
                     = remaining s i1).
      { unfold remaining, i1, elements_at. cbn.
        replace (N.to_nat (bucket i + 1)) with (S (N.to_nat (bucket i)))
          by lia.
        reflexivity. }
      rewrite Hrem. apply IH; unfold i1; cbn; lia.
  - cbn. eexists. split; [reflexivity|]. split; [exact Hlt|].
    unfold remaining. reflexivity.
Qed.

Lemma remaining_new s :
  HashSet_wf s -> remaining s (HashSetIteratorNew s) = all_elements s.
Proof.
  intros [Hc Hlen]. unfold remaining, HashSetIteratorNew. cbn.
  unfold elements_at, all_elements. cbn.
  rewrite <- drop_S_lookup by lia. reflexivity.
Qed.

Lemma HashSetIteratorNext_n_remaining s :
  HashSet_wf s ->
  forall (rest : list E) (i : HashSetIterator),
    bucket i < count s -> remaining s i = rest ->
    exists i',
      HashSetIteratorNext_n (S (length rest)) s i =
        (map Some rest ++ [None], i') /\
      exhausted s i'.
Proof.
  intros Hwf. induction rest as [|x rest IH]; intros i Hlt Hrem.
  - pose proof (HashSetIteratorNext_remaining s Hwf _ i (le_n _) Hlt) as Hstep.
    rewrite Hrem in Hstep. destruct Hstep as (i' & Hnext & Hex).
    exists i'. cbn. rewrite Hnext. split; [reflexivity|exact Hex].
  - pose proof (HashSetIteratorNext_remaining s Hwf _ i (le_n _) Hlt) as Hstep.
    rewrite Hrem in Hstep. destruct Hstep as (i1 & Hnext & Hlt1 & Hrem1).
    destruct (IH i1 Hlt1 Hrem1) as (i' & Hn & Hex).
    exists i'. split; [|exact Hex].
    change (HashSetIteratorNext_n (S (length (x :: rest))) s i)
      with (let (r, j) := HashSetIteratorNext s i in
            let (rs, j') := HashSetIteratorNext_n (S (length rest)) s j in
            (r :: rs, j')).
    rewrite Hnext, Hn. reflexivity.
Qed.

Lemma HashSetIteratorNext_None_exhausted s :
  forall (m : nat) (i : HashSetIterator),
    (N.to_nat (count s - bucket i) <= m)%nat ->
    fst (HashSetIteratorNext s i) = None ->
    exhausted s (snd (HashSetIteratorNext s i)).
Proof.
  induction m as [|m IH]; intros i Hm; rewrite HashSetIteratorNext_eq;
    destruct (N.ltb_spec (bucket i) (count s)) as [Hlt|Hge];
    try lia; try (intros _; exact Hge).
  destruct (element i) as [|x next]; [|discriminate].
  destruct (N.eqb_spec (bucket i + 1) (count s)) as [Heq|Hne].
  - intros _. unfold exhausted. cbn. lia.
  - apply IH. cbn. lia.
Qed.

Lemma HashSetIteratorNext_n_exhausted s (i : HashSetIterator) (n : nat) :
  exhausted s i -> HashSetIteratorNext_n n s i = (replicate n None, i).
Proof.
  intros Hex. induction n as [|n IH]; [reflexivity|].
  cbn. rewrite (HashSetIteratorNext_exhausted s i Hex), IH. reflexivity.
Qed.

(** C7.  Once a call of [HashSetIteratorNext] has returned [NULL], the
    cursor it leaves behind is past the last bucket, and every later
    call (on a table with that bucket count, whatever else happened to
    it) returns [NULL] again and leaves the cursor as it is: the
    iterator never rewinds.  A cursor made by [HashSetIteratorNew]
    starts over at bucket 0 and runs through the whole membership. *)
Theorem HashSetIteratorNext_stays_exhausted s (i : HashSetIterator) :
  fst (HashSetIteratorNext s i) = None ->
  let i' := snd (HashSetIteratorNext s i) in
  count s <= bucket i' /\
  (forall (s' : HashSet) (n : nat),
     count s' = count s ->
     HashSetIteratorNext_n n s' i' = (replicate n None, i')) /\
  (HashSet_wf s ->
   bucket (HashSetIteratorNew s) = 0 /\
   fst (HashSetIteratorNext_n (S (length (all_elements s))) s
          (HashSetIteratorNew s)) =
     map Some (all_elements s) ++ [None]).
Proof.
  intros Hnone i'.
  pose proof (HashSetIteratorNext_None_exhausted s _ i (le_n _) Hnone) as Hex.
  fold i' in Hex. split; [exact Hex|]. split.
  - intros s' n Hcount. apply HashSetIteratorNext_n_exhausted.
    unfold exhausted in *. rewrite Hcount. exact Hex.
  - intros Hwf. split; [reflexivity|].
    assert (Hlt : bucket (HashSetIteratorNew s) < count s)
      by (destruct Hwf; cbn; lia).
    destruct (HashSetIteratorNext_n_remaining s Hwf _ _ Hlt
                (remaining_new s Hwf)) as (j & Hn & _).
    rewrite Hn. reflexivity.
Qed.

(** ** The invariant and its preservation *)

Lemma elem_of_concat (ls : list (list E)) x :
  x ∈ concat ls <-> exists (j : nat) es, ls !! j = Some es /\ x ∈ es.
Proof.
  induction ls as [|es0 ls IH]; cbn.
  - split; [intros H; inversion H|intros (j & es & Hj & _); discriminate].
  - rewrite elem_of_app, IH. split.
    + intros [H0|(j & es & Hj & Hx)].
      * exists O, es0. split; [reflexivity|exact H0].
      * exists (S j), es. split; assumption.
    + intros ([|j] & es & Hj & Hx).
      * left. cbn in Hj. congruence.
      * right. exists j, es. split; assumption.
Qed.

Lemma chain_unique_app cmp l1 l2 :
  chain_unique cmp (l1 ++ l2) <->
  chain_unique cmp l1 /\ chain_unique cmp l2 /\
  Forall (fun a => Forall (fun b => cmp a b <> 0%Z) l2) l1.
Proof.
  induction l1 as [|a l1 IH]; cbn.
  - split; [intros H; repeat split; [exact H|constructor]|tauto].
  - rewrite Forall_app, IH, Forall_cons. tauto.
Qed.

Section Laws.

Context (h : @Hasher E) (cmp : @Comparator E) (Hlaws : key_laws h cmp).

Lemma match_transfer e p y :
  cmp e p = 0%Z -> cmp y p = 0%Z -> cmp y e = 0%Z.
Proof.
  intros Hep Hyp. eapply cmp_trans; [exact Hlaws|exact Hyp|].
  apply (cmp_sym _ _ Hlaws). exact Hep.
Qed.

Lemma nomatch_transfer e p l :
  cmp e p = 0%Z ->
  Forall (fun y => cmp y e <> 0%Z) l -> Forall (fun y => cmp y p <> 0%Z) l.
Proof.
  intros Hep Hall. eapply Forall_impl; [exact Hall|]. cbn. intros y Hy Hyp.
  apply Hy. exact (match_transfer e p y Hep Hyp).
Qed.

Lemma chain_unique_replace e l1 x l2 :
  cmp x e = 0%Z -> chain_unique cmp (l1 ++ x :: l2) ->
  chain_unique cmp (l1 ++ e :: l2).
Proof.
  intros Hxe. rewrite !chain_unique_app. cbn.
  intros (H1 & (Hx & H2) & H12). repeat split; try assumption.
  - eapply Forall_impl; [exact Hx|]. cbn. intros y Hxy Hey. apply Hxy.
    eapply cmp_trans; [exact Hlaws|exact Hxe|exact Hey].
  - eapply Forall_impl; [exact H12|]. cbn. intros a Ha.
    apply Forall_cons in Ha as [Hax Ha2]. constructor; [|exact Ha2].
    intros Hae. apply Hax.
    eapply cmp_trans; [exact Hlaws|exact Hae|].
    apply (cmp_sym _ _ Hlaws). exact Hxe.
Qed.

Lemma chain_unique_snoc e l :
  Forall (fun y => cmp y e <> 0%Z) l -> chain_unique cmp l ->
  chain_unique cmp (l ++ [e]).
Proof.
  intros Hall Hl. rewrite chain_unique_app. cbn.
  repeat split; try assumption; try constructor.
  eapply Forall_impl; [exact Hall|]. cbn. intros y Hy. constructor; [exact Hy|constructor].
Qed.

Lemma chain_unique_unlink l1 x l2 :
  chain_unique cmp (l1 ++ x :: l2) -> chain_unique cmp (l1 ++ l2).
Proof.
  rewrite !chain_unique_app. cbn.
  intros (H1 & (_ & H2) & H12). repeat split; try assumption.
  eapply Forall_impl; [exact H12|]. cbn. intros a Ha.
  apply Forall_cons in Ha as [_ Ha2]. exact Ha2.
Qed.

(** In a chain without duplicate keys, nothing behind the first match
    of a probe matches it. *)
Lemma chain_unique_first_match p l1 x l2 :
  chain_unique cmp (l1 ++ x :: l2) ->
  Forall (fun y => cmp y p <> 0%Z) l1 -> cmp x p = 0%Z ->
  Forall (fun y => cmp y p <> 0%Z) (l1 ++ l2).
Proof.
  intros Hu Hl1 Hxp. apply Forall_app. split; [exact Hl1|].
  apply chain_unique_app in Hu as (_ & (Hx & _) & _).
  eapply Forall_impl; [exact Hx|]. cbn. intros y Hxy Hyp. apply Hxy.
  eapply cmp_trans; [exact Hlaws|exact Hxp|].
  apply (cmp_sym _ _ Hlaws). exact Hyp.
Qed.

Lemma key_count_app p l1 l2 :
  key_count cmp p (l1 ++ l2) = (key_count cmp p l1 + key_count cmp p l2)%nat.
Proof.
  unfold key_count. rewrite List.filter_app, length_app. reflexivity.
Qed.

Lemma key_count_nomatch p l :
  Forall (fun y => cmp y p <> 0%Z) l -> key_count cmp p l = O.
Proof.
  unfold key_count, matches.
  induction 1 as [|y l Hy _ IH]; cbn; [reflexivity|].
  apply Z.eqb_neq in Hy. rewrite Hy. exact IH.
Qed.

Lemma key_count_chain_unique p l :
  chain_unique cmp l -> (key_count cmp p l <= 1)%nat.
Proof.
  intros Hu. destruct (chain_match_cases cmp p l)
    as [Hall|(l1 & x & l2 & -> & Hl1 & Hx)].
  - rewrite key_count_nomatch by exact Hall. lia.
  - pose proof (chain_unique_first_match p l1 x l2 Hu Hl1 Hx) as Hrest.
    apply Forall_app in Hrest as [_ Hl2].
    rewrite key_count_app, (key_count_nomatch p l1 Hl1).
    change (x :: l2) with ([x] ++ l2).
    rewrite key_count_app, (key_count_nomatch p l2 Hl2).
    unfold key_count, matches. cbn. destruct (cmp x p =? 0)%Z; cbn; lia.
Qed.

End Laws.

Lemma HashSetNew_inv (n : N) h cmp :
  1 <= n -> key_laws h cmp -> HashSet_inv (HashSetNew n h cmp).
Proof.
  intros Hn Hlaws. split; [|split; [exact Hlaws|split]].
  - split; [exact Hn|]. cbn. apply length_replicate.
  - intros j es x Hj Hx. cbn in Hj.
    apply lookup_replicate in Hj as [-> _]. inversion Hx.
  - cbn. apply Forall_replicate. exact I.
Qed.

Lemma inv_chain s (i : N) :
  HashSet_inv s -> i < count s ->
  chain_unique (comparator s) (elements_at s i) /\
  Forall (fun x => hash_of s x = i) (elements_at s i).
Proof.
  intros ((Hc & Hlen) & _ & Hpl & Hun) Hi.
  assert (Hin : (N.to_nat i < length (elements s))%nat) by lia.
  destruct (lookup_lt_is_Some_2 _ _ Hin) as [es Hes].
  rewrite (elements_at_lookup _ _ _ Hes). split.
  - exact (Forall_lookup_1 _ _ _ _ Hun Hes).
  - apply Forall_forall. intros x Hx.
    pose proof (Hpl _ _ _ Hes Hx) as Hj. lia.
Qed.

Lemma elements_set_inv s (i : N) es :
  HashSet_inv s -> i < count s ->
  Forall (fun x => hash_of s x = i) es ->
  chain_unique (comparator s) es ->
  HashSet_inv (elements_set s i es).
Proof.
  intros (Hwf & Hlaws & Hpl & Hun) Hi Hhash Hes.
  split; [|split; [exact Hlaws|split]].
  - apply elements_set_wf. exact Hwf.
  - intros j es' x Hj Hx.
    change (hash_of (elements_set s i es) x) with (hash_of s x).
    destruct (decide (j = N.to_nat i)) as [->|Hne].
    + cbn in Hj. rewrite list_lookup_insert_eq in Hj
        by (destruct Hwf; lia).
      injection Hj as <-. rewrite Forall_forall in Hhash.
      rewrite (Hhash x Hx). reflexivity.
    + rewrite elements_set_lookup_ne in Hj by exact Hne.
      exact (Hpl _ _ _ Hj Hx).
  - cbn. apply Forall_insert; assumption.
Qed.

Lemma HashSetAdd_inv s e : HashSet_inv s -> HashSet_inv (HashSetAdd s e).
Proof.
  intros Hinv. pose proof Hinv as (Hwf & Hlaws & _).
  pose proof (hash_of_lt s e Hwf) as Hi.
  destruct (inv_chain s _ Hinv Hi) as [Hun Hhash].
  destruct (chain_match_cases (comparator s) e (elements_at s (hash_of s e)))
    as [Hall|(l1 & x & l2 & Hch & Hl1 & Hx)].
  - rewrite (HashSetAdd_miss s e Hall).
    apply elements_set_inv; try assumption.
    + apply Forall_app. split; [exact Hhash|]. constructor; [reflexivity|constructor].
    + apply chain_unique_snoc; assumption.
  - rewrite (HashSetAdd_hit s e l1 x l2 Hch Hl1 Hx).
    rewrite Hch in Hun, Hhash.
    apply elements_set_inv; try assumption.
    + apply Forall_app in Hhash as [H1 H2]. apply Forall_cons in H2 as [_ H2].
      apply Forall_app. split; [exact H1|]. constructor; [reflexivity|exact H2].
    + apply (chain_unique_replace (hasher s) _ Hlaws e l1 x l2 Hx Hun).
Qed.

Lemma HashSetRemove_inv s e : HashSet_inv s -> HashSet_inv (HashSetRemove s e).
Proof.
  intros Hinv. pose proof Hinv as (Hwf & Hlaws & _).
  pose proof (hash_of_lt s e Hwf) as Hi.
  destruct (inv_chain s _ Hinv Hi) as [Hun Hhash].
  rewrite HashSetRemove_unfold.
  destruct (chain_match_cases (comparator s) e (elements_at s (hash_of s e)))
    as [Hall|(l1 & x & l2 & Hch & Hl1 & Hx)].
  - rewrite (HashSetRemove_chain_miss _ _ _ Hall), elements_set_same.
    exact Hinv.
  - rewrite Hch in *.
    rewrite (HashSetRemove_chain_hit _ _ _ _ _ Hl1 Hx).
    apply elements_set_inv; try assumption.
    + apply Forall_app in Hhash as [H1 H2]. apply Forall_cons in H2 as [_ H2].
      apply Forall_app. split; assumption.
    + apply (chain_unique_unlink (comparator s) l1 x l2 Hun).
Qed.

Lemma HashSetAdd_fields s e :
  count (HashSetAdd s e) = count s /\ hasher (HashSetAdd s e) = hasher s /\
  comparator (HashSetAdd s e) = comparator s.
Proof.
  destruct (HashSetAdd_writes_one s e) as [es' ->]. repeat split.
Qed.

Lemma reachable_inv h cmp s :
  key_laws h cmp -> reachable h cmp s ->
  HashSet_inv s /\ hasher s = h /\ comparator s = cmp.
Proof.
  intros Hlaws. induction 1 as [n Hn|s e _ (IH & Hh & Hc)|s e _ (IH & Hh & Hc)].
  - split; [apply HashSetNew_inv; assumption|split; reflexivity].
  - split; [apply HashSetAdd_inv; exact IH|].
    destruct (HashSetAdd_fields s e) as (_ & -> & ->). split; assumption.
  - split; [apply HashSetRemove_inv; exact IH|]. split; assumption.
Qed.

Lemma fold_HashSetAdd_reachable h cmp s (es : list E) :
  reachable h cmp s -> reachable h cmp (fold_left HashSetAdd es s).
Proof.
  revert s. induction es as [|e es IH]; intros s Hs; [exact Hs|].
  cbn. apply IH. constructor. exact Hs.
Qed.

(** Callbacks that look at nothing but a key part satisfy the laws. *)
Lemma key_laws_of_key {K : Type} (key : E -> K) (hk : K -> N) h cmp :
  (forall a, h a = hk (key a)) ->
  (forall a b, cmp a b = 0%Z <-> key a = key b) ->
  key_laws h cmp.
Proof.
  intros Hh Hcmp. split.
  - intros a. apply Hcmp. reflexivity.
  - intros a b. rewrite !Hcmp. congruence.
  - intros a b c. rewrite !Hcmp. congruence.
  - intros a b. rewrite Hcmp, !Hh. congruence.
Qed.

(** ** One key, one node *)

Lemma inv_hash_of_match s x p :
  HashSet_inv s -> comparator s x p = 0%Z -> hash_of s x = hash_of s p.
Proof.
  intros (_ & Hlaws & _) Hxp. unfold hash_of.
  rewrite (hash_compat _ _ Hlaws x p Hxp). reflexivity.
Qed.

Lemma inv_match_in_bucket s x p :
  HashSet_inv s -> x ∈ all_elements s -> comparator s x p = 0%Z ->
  x ∈ elements_at s (hash_of s p).
Proof.
  intros Hinv Hx Hxp. pose proof Hinv as (_ & _ & Hpl & _).
  apply elem_of_concat in Hx as (j & es & Hj & Hx).
  pose proof (Hpl _ _ _ Hj Hx) as Hhash.
  rewrite (inv_hash_of_match s x p Hinv Hxp) in Hhash. subst j.
  rewrite (elements_at_lookup _ _ _ Hj). exact Hx.
Qed.

Lemma inv_nomatch_outside s p :
  HashSet_inv s ->
  Forall (fun y => comparator s y p <> 0%Z)
    (concat (take (N.to_nat (hash_of s p)) (elements s))) /\
  Forall (fun y => comparator s y p <> 0%Z)
    (concat (drop (S (N.to_nat (hash_of s p))) (elements s))).
Proof.
  intros Hinv. pose proof Hinv as (_ & _ & Hpl & _).
  split; apply Forall_forall; intros x Hx Hxp;
    apply elem_of_concat in Hx as (j & es & Hj & Hx);
    pose proof (inv_hash_of_match s x p Hinv Hxp) as Hhash.
  - apply lookup_take_Some in Hj as [Hj Hlt].
    pose proof (Hpl _ _ _ Hj Hx) as Hpos. rewrite Hhash in Hpos. lia.
  - rewrite lookup_drop in Hj.
    pose proof (Hpl _ _ _ Hj Hx) as Hpos. rewrite Hhash in Hpos. lia.
Qed.

Lemma inv_key_count_bucket s p :
  HashSet_inv s ->
  key_count (comparator s) p (all_elements s) =
  key_count (comparator s) p (elements_at s (hash_of s p)).
Proof.
  intros Hinv. destruct (inv_nomatch_outside s p Hinv) as [Hbefore Hafter].
  pose proof Hinv as (Hwf & _).
  rewrite (all_elements_split s (hash_of s p) (hash_of_in_range s p Hwf)).
  rewrite !key_count_app.
  rewrite (key_count_nomatch _ _ _ Hbefore), (key_count_nomatch _ _ _ Hafter).
  lia.
Qed.

Lemma inv_key_count_le s p :
  HashSet_inv s -> (key_count (comparator s) p (all_elements s) <= 1)%nat.
Proof.
  intros Hinv. rewrite (inv_key_count_bucket s p Hinv).
  pose proof Hinv as (Hwf & Hlaws & _).
  apply (key_count_chain_unique (hasher s) _ Hlaws).
  apply (inv_chain s _ Hinv (hash_of_lt s p Hwf)).
Qed.

Lemma key_count_member cmp p x l :
  x ∈ l -> cmp x p = 0%Z -> (1 <= key_count cmp p l)%nat.
Proof.
  intros Hx Hxp. apply list_elem_of_split in Hx as (l1 & l2 & ->).
  rewrite key_count_app. change (x :: l2) with ([x] ++ l2).
  rewrite key_count_app. unfold key_count at 2, matches. cbn.
  rewrite Hxp. cbn. lia.
Qed.

Lemma inv_key_count_member s x :
  HashSet_inv s -> x ∈ all_elements s ->
  key_count (comparator s) x (all_elements s) = 1%nat.
Proof.
  intros Hinv Hx. pose proof (inv_key_count_le s x Hinv) as Hle.
  pose proof Hinv as (_ & Hlaws & _).
  pose proof (key_count_member (comparator s) x x _ Hx (cmp_refl _ _ Hlaws x)).
  lia.
Qed.

(** ** Lookup after insertion *)

Lemma HashSetGet_chain_app cmp p l1 l2 :
  HashSetGet_chain cmp p (l1 ++ l2) =
  match HashSetGet_chain cmp p l1 with
  | Some r => Some r
  | None => HashSetGet_chain cmp p l2
  end.
Proof.
  induction l1 as [|y l1 IH]; cbn; [reflexivity|].
  destruct (cmp y p =? 0)%Z; [reflexivity|exact IH].
Qed.

Lemma HashSetGet_Add_same s e p :
  HashSet_wf s -> key_laws (hasher s) (comparator s) ->
  comparator s e p = 0%Z ->
  HashSetGet (HashSetAdd s e) p = Some e.
Proof.
  intros Hwf Hlaws Hep.
  assert (Hhash : hash_of s p = hash_of s e).
  { unfold hash_of. rewrite (hash_compat _ _ Hlaws e p Hep). reflexivity. }
  pose proof (hash_of_in_range s e Hwf) as Hi.
  destruct (chain_match_cases (comparator s) e (elements_at s (hash_of s e)))
    as [Hall|(l1 & x & l2 & Hch & Hl1 & Hx)].
  - rewrite (HashSetAdd_miss s e Hall). unfold HashSetGet. cbn.
    fold (hash_of s p). rewrite Hhash, elements_at_set_eq by exact Hi.
    change (elements_at s (hash_of s e) ++ [e])
      with (elements_at s (hash_of s e) ++ e :: []).
    apply HashSetGet_chain_hit; [|exact Hep].
    exact (nomatch_transfer _ _ Hlaws e p _ Hep Hall).
  - rewrite (HashSetAdd_hit s e l1 x l2 Hch Hl1 Hx). unfold HashSetGet. cbn.
    fold (hash_of s p). rewrite Hhash, elements_at_set_eq by exact Hi.
    apply HashSetGet_chain_hit; [|exact Hep].
    exact (nomatch_transfer _ _ Hlaws e p _ Hep Hl1).
Qed.

Lemma HashSetGet_Add_other s e p :
  HashSet_wf s -> key_laws (hasher s) (comparator s) ->
  comparator s e p <> 0%Z ->
  HashSetGet (HashSetAdd s e) p = HashSetGet s p.
Proof.
  intros Hwf Hlaws Hep.
  pose proof (hash_of_in_range s e Hwf) as Hi.
  assert (Hset : forall es',
    HashSetGet_chain (comparator s) p es' =
      HashSetGet_chain (comparator s) p (elements_at s (hash_of s e)) ->
    HashSetGet (elements_set s (hash_of s e) es') p = HashSetGet s p).
  { intros es' Hes'. unfold HashSetGet. cbn. fold (hash_of s p).
    destruct (decide (hash_of s e = hash_of s p)) as [Heq|Hne].
    - rewrite <- Heq, elements_at_set_eq by exact Hi. exact Hes'.
    - rewrite elements_at_set_ne by exact Hne. reflexivity. }
  apply Z.eqb_neq in Hep.
  destruct (chain_match_cases (comparator s) e (elements_at s (hash_of s e)))
    as [Hall|(l1 & x & l2 & Hch & Hl1 & Hx)].
  - rewrite (HashSetAdd_miss s e Hall). apply Hset.
    rewrite HashSetGet_chain_app. cbn. rewrite Hep.
    destruct (HashSetGet_chain _ p _); reflexivity.
  - rewrite (HashSetAdd_hit s e l1 x l2 Hch Hl1 Hx). apply Hset.
    rewrite Hch, !HashSetGet_chain_app. cbn. rewrite Hep.
    assert (Hxp : (comparator s x p =? 0)%Z = false).
    { apply Z.eqb_neq. intros Hxp. apply Z.eqb_neq in Hep. apply Hep.
      eapply cmp_trans; [exact Hlaws| |exact Hxp].
      apply (cmp_sym _ _ Hlaws). exact Hx. }
    rewrite Hxp. reflexivity.
Qed.

Lemma fold_HashSetAdd_fields s (es : list E) :
  HashSet_wf s ->
  HashSet_wf (fold_left HashSetAdd es s) /\
  hasher (fold_left HashSetAdd es s) = hasher s /\
  comparator (fold_left HashSetAdd es s) = comparator s.
Proof.
  revert s. induction es as [|e es IH]; intros s Hwf;
    [split; [exact Hwf|split; reflexivity]|].
  cbn. destruct (HashSetAdd_fields s e) as (_ & Hh & Hc).
  destruct (IH (HashSetAdd s e)) as (Hwf' & Hh' & Hc').
  - destruct (HashSetAdd_writes_one s e) as [es' ->].
    apply elements_set_wf. exact Hwf.
  - split; [exact Hwf'|]. split; congruence.
Qed.

Lemma latest_match_snoc cmp p (es : list E) e :
  latest_match cmp p (es ++ [e]) =
  if (cmp e p =? 0)%Z then Some e else latest_match cmp p es.
Proof.
  unfold latest_match. rewrite rev_app_distr. reflexivity.
Qed.

Lemma HashSetGet_fold_Add s (es : list E) p :
  HashSet_wf s -> key_laws (hasher s) (comparator s) ->
  HashSetGet (fold_left HashSetAdd es s) p =
  match latest_match (comparator s) p es with
  | Some e => Some e
  | None => HashSetGet s p
  end.
Proof.
  intros Hwf Hlaws. induction es as [|e es IH] using rev_ind; [reflexivity|].
  rewrite fold_left_app, latest_match_snoc. cbn.
  destruct (fold_HashSetAdd_fields s es Hwf) as (Hwf' & Hh & Hc).
  assert (Hlaws' : key_laws (hasher (fold_left HashSetAdd es s))
                     (comparator (fold_left HashSetAdd es s)))
    by (rewrite Hh, Hc; exact Hlaws).
  destruct (Z.eqb_spec (comparator s e p) 0) as [Hep|Hep].
  - apply HashSetGet_Add_same; [exact Hwf'|exact Hlaws'|].
    rewrite Hc. exact Hep.
  - rewrite HashSetGet_Add_other; [exact IH|exact Hwf'|exact Hlaws'|].
    rewrite Hc. exact Hep.
Qed.

Lemma latest_match_matches cmp p (es : list E) e :
  latest_match cmp p es = Some e -> cmp e p = 0%Z.
Proof.
  unfold latest_match. intros Hfind.
  apply List.find_some in Hfind as [_ Hm]. apply Z.eqb_eq. exact Hm.
Qed.

(** C2.  After [HashSetAdd] of [e], [HashSetGet] with a probe that
    compares equal to [e] returns [e] itself, and [HashSetContains] is
    true.  After any further insertions the same probe gets the most
    recently inserted element that compares equal to it, which is [e]
    when there was none: the reference handed out is always that of
    the latest insertion under the key, so its value part is the one
    the caller stored last. *)
Theorem HashSetGet_after_Add s e p (later : list E) :
  HashSet_wf s -> key_laws (hasher s) (comparator s) ->
  comparator s e p = 0%Z ->
  HashSetGet (HashSetAdd s e) p = Some e /\
  HashSetContains (HashSetAdd s e) p = true /\
  let s' := fold_left HashSetAdd later (HashSetAdd s e) in
  let latest := default e (latest_match (comparator s) p later) in
  HashSetGet s' p = Some latest /\
  HashSetContains s' p = true /\
  comparator s latest p = 0%Z.
Proof.
  intros Hwf Hlaws Hep.
  pose proof (HashSetGet_Add_same s e p Hwf Hlaws Hep) as Hget.
  split; [exact Hget|]. split; [unfold HashSetContains; rewrite Hget; reflexivity|].
  intros s' latest.
  destruct (HashSetAdd_fields s e) as (_ & Hh & Hc).
  assert (Hwf1 : HashSet_wf (HashSetAdd s e)).
  { destruct (HashSetAdd_writes_one s e) as [es' ->].
    apply elements_set_wf. exact Hwf. }
  assert (Hlaws1 : key_laws (hasher (HashSetAdd s e))
                     (comparator (HashSetAdd s e)))
    by (rewrite Hh, Hc; exact Hlaws).
  pose proof (HashSetGet_fold_Add (HashSetAdd s e) later p Hwf1 Hlaws1) as Hfold.
  rewrite Hc, Hget in Hfold. fold s' in Hfold.
  assert (Hs' : HashSetGet s' p = Some latest).
  { rewrite Hfold. unfold latest.
    destruct (latest_match (comparator s) p later); reflexivity. }
  split; [exact Hs'|]. split; [unfold HashSetContains; rewrite Hs'; reflexivity|].
  unfold latest.
  destruct (latest_match (comparator s) p later) as [e'|] eqn:Hl; cbn.
  - exact (latest_match_matches _ _ _ _ Hl).
  - exact Hep.
Qed.

Lemma HashSetGet_chain_Some cmp p es x :
  HashSetGet_chain cmp p es = Some x -> x ∈ es /\ cmp x p = 0%Z.
Proof.
  induction es as [|y es IH]; cbn; [discriminate|].
  destruct (Z.eqb_spec (cmp y p) 0) as [Hy|Hy].
  - intros [= <-]. split; [apply elem_of_cons; left; reflexivity|exact Hy].
  - intros Hget. destruct (IH Hget) as [Hin Hx].
    split; [apply elem_of_cons; right; exact Hin|exact Hx].
Qed.

(** ** Uniqueness of keys *)

Lemma elements_at_member s (i : N) x :
  x ∈ elements_at s i -> x ∈ all_elements s.
Proof.
  unfold elements_at. intros Hx. apply elem_of_concat.
  destruct (elements s !! N.to_nat i) as [es|] eqn:Hi; cbn in Hx.
  - exists (N.to_nat i), es. split; [exact Hi|exact Hx].
  - inversion Hx.
Qed.

Lemma HashSetGet_Some s p x :
  HashSetGet s p = Some x -> x ∈ all_elements s /\ comparator s x p = 0%Z.
Proof.
  unfold HashSetGet. intros Hget.
  apply HashSetGet_chain_Some in Hget as [Hin Hx].
  split; [exact (elements_at_member s _ x Hin)|exact Hx].
Qed.

Lemma HashSetAdd_match_length s e :
  HashSet_wf s ->
  Exists (fun y => comparator s y e = 0%Z) (elements_at s (hash_of s e)) ->
  length (all_elements (HashSetAdd s e)) = length (all_elements s).
Proof.
  intros Hwf Hex.
  destruct (first_match_split _ _ _ Hex) as (l1 & x & l2 & Hch & Hl1 & Hx).
  pose proof (hash_of_in_range s e Hwf) as Hi.
  rewrite (HashSetAdd_hit s e l1 x l2 Hch Hl1 Hx).
  pose proof (all_elements_set_length s (hash_of s e) (l1 ++ e :: l2) Hi) as Hn.
  rewrite Hch, !length_app in Hn. cbn [length] in Hn. lia.
Qed.

Lemma HashSetAdd_member s e :
  HashSet_wf s -> e ∈ all_elements (HashSetAdd s e).
Proof.
  intros Hwf. pose proof (hash_of_in_range s e Hwf) as Hi.
  apply (elements_at_member _ (hash_of s e)).
  destruct (chain_match_cases (comparator s) e (elements_at s (hash_of s e)))
    as [Hall|(l1 & x & l2 & Hch & Hl1 & Hx)].
  - rewrite (HashSetAdd_miss s e Hall), elements_at_set_eq by exact Hi.
    apply elem_of_app. right. apply list_elem_of_singleton. reflexivity.
  - rewrite (HashSetAdd_hit s e l1 x l2 Hch Hl1 Hx), elements_at_set_eq
      by exact Hi.
    apply elem_of_app. right. apply elem_of_cons. left. reflexivity.
Qed.

(** C1.  In a table built from a fresh one by any sequence of
    [HashSetAdd] calls, at most one stored element matches any given
    probe, and what [HashSetGet] returns for a probe is that one
    element: at most one element per key can be retrieved.  Adding an
    element whose key is already stored leaves the number of nodes as
    it was, leaves exactly one element with that key in the table, and
    that element is the one just added. *)
Theorem HashSetAdd_keys_unique (n : N) h cmp (es : list E) :
  1 <= n -> key_laws h cmp ->
  let s := fold_left HashSetAdd es (HashSetNew n h cmp) in
  (forall p, (key_count cmp p (all_elements s) <= 1)%nat) /\
  (forall p x,
     HashSetGet s p = Some x ->
     x ∈ all_elements s /\ cmp x p = 0%Z /\
     key_count cmp p (all_elements s) = 1%nat) /\
  forall e,
    Exists (fun x => cmp x e = 0%Z) (all_elements s) ->
    length (all_elements (HashSetAdd s e)) = length (all_elements s) /\
    key_count cmp e (all_elements (HashSetAdd s e)) = 1%nat /\
    (forall p, (key_count cmp p (all_elements (HashSetAdd s e)) <= 1)%nat) /\
    HashSetGet (HashSetAdd s e) e = Some e.
Proof.
  intros Hn Hlaws s.
  assert (Hreach : reachable h cmp s)
    by (apply fold_HashSetAdd_reachable; constructor; exact Hn).
  destruct (reachable_inv h cmp s Hlaws Hreach) as (Hinv & Hh & Hc).
  pose proof Hinv as (Hwf & Hlaws' & _).
  split; [|split].
  - intros p. rewrite <- Hc. apply inv_key_count_le. exact Hinv.
  - intros p x Hget. apply HashSetGet_Some in Hget as [Hin Hx].
    rewrite <- Hc. split; [exact Hin|]. split; [exact Hx|].
    pose proof (inv_key_count_le s p Hinv) as Hle.
    pose proof (key_count_member (comparator s) p x _ Hin Hx) as Hge.
    lia.
  - intros e Hex.
    pose proof (HashSetAdd_inv s e Hinv) as Hinv'.
    destruct (HashSetAdd_fields s e) as (_ & _ & Hc').
    split; [|split; [|split]].
    + apply HashSetAdd_match_length; [exact Hwf|].
      apply Exists_exists in Hex as (x & Hx & Hxe).
      apply Exists_exists. exists x. rewrite Hc. split; [|exact Hxe].
      apply inv_match_in_bucket; [exact Hinv|exact Hx|].
      rewrite Hc. exact Hxe.
    + rewrite <- Hc, <- Hc'. apply inv_key_count_member; [exact Hinv'|].
      apply HashSetAdd_member. exact Hwf.
    + intros p. rewrite <- Hc, <- Hc'. apply inv_key_count_le. exact Hinv'.
    + apply HashSetGet_Add_same; [exact Hwf|exact Hlaws'|].
      apply (cmp_refl _ _ Hlaws').
Qed.

(** ** Removal *)

(** C3.  In a table that satisfies the invariant, let [e] be stored
    and let the probes [p] and [p'] both compare equal to [e].  After
    [HashSetRemove] with [p], [HashSetContains] with [p'] is false, a
    full iteration yields the remaining membership and then reports
    the end, no element of that membership compares equal to [p'], and
    exactly one node is gone: the node that [HashSetGet] finds for [p],
    its predecessors and successors closing ranks in its chain. *)
Theorem HashSetRemove_complete s e p p' :
  HashSet_inv s -> e ∈ all_elements s ->
  comparator s e p = 0%Z -> comparator s e p' = 0%Z ->
  let s' := HashSetRemove s p in
  HashSetContains s' p' = false /\
  fst (HashSetIteratorNext_n (S (length (all_elements s'))) s'
         (HashSetIteratorNew s')) = map Some (all_elements s') ++ [None] /\
  Forall (fun z => comparator s z p' <> 0%Z) (all_elements s') /\
  S (length (all_elements s')) = length (all_elements s) /\
  exists l1 x l2,
    elements_at s (hash_of s p) = l1 ++ x :: l2 /\
    HashSetGet s p = Some x /\
    elements_at s' (hash_of s p) = l1 ++ l2.
Proof.
  intros Hinv He Hep Hep' s'.
  pose proof Hinv as (Hwf & Hlaws & _).
  pose proof (hash_of_lt s p Hwf) as Hlt.
  pose proof (hash_of_in_range s p Hwf) as Hi.
  pose proof (HashSetRemove_inv s p Hinv) as Hinv'. fold s' in Hinv'.
  pose proof Hinv' as (Hwf' & _).
  destruct (inv_chain s _ Hinv Hlt) as [Hun _].
  pose proof (inv_match_in_bucket s e p Hinv He Hep) as Hin.
  destruct (chain_match_cases (comparator s) p (elements_at s (hash_of s p)))
    as [Hall|(l1 & x & l2 & Hch & Hl1 & Hx)].
  { exfalso. rewrite Forall_forall in Hall. exact (Hall e Hin Hep). }
  assert (Hs' : s' = elements_set s (hash_of s p) (l1 ++ l2)).
  { unfold s'. rewrite HashSetRemove_unfold, Hch.
    rewrite (HashSetRemove_chain_hit _ _ _ _ _ Hl1 Hx). reflexivity. }
  assert (Hat : elements_at s' (hash_of s p) = l1 ++ l2)
    by (rewrite Hs'; apply elements_at_set_eq; exact Hi).
  assert (Hfound : HashSetGet s p = Some x).
  { unfold HashSetGet. fold (hash_of s p). rewrite Hch.
    exact (HashSetGet_chain_hit _ _ _ _ _ Hl1 Hx). }
  rewrite Hch in Hun.
  pose proof (chain_unique_first_match _ _ Hlaws p l1 x l2 Hun Hl1 Hx) as Hnone.
  assert (Hto_p : forall z, comparator s z p' = 0%Z -> comparator s z p = 0%Z).
  { intros z Hz. eapply cmp_trans; [exact Hlaws| |exact Hep].
    exact (match_transfer _ _ Hlaws e p' z Hep' Hz). }
  assert (Hnone' : Forall (fun z => comparator s z p' <> 0%Z) (l1 ++ l2)).
  { eapply Forall_impl; [exact Hnone|]. cbn. intros z Hz Hz'.
    exact (Hz (Hto_p z Hz')). }
  assert (Hhash : hash_of s p' = hash_of s p).
  { unfold hash_of. rewrite <- (hash_compat _ _ Hlaws e p Hep).
    rewrite <- (hash_compat _ _ Hlaws e p' Hep'). reflexivity. }
  split; [|split; [|split; [|split]]].
  - unfold HashSetContains, HashSetGet.
    change (hasher s' p' mod count s') with (hash_of s p').
    change (comparator s') with (comparator s).
    rewrite Hhash, Hat, (HashSetGet_chain_miss _ _ _ Hnone'). reflexivity.
  - assert (Hb : bucket (HashSetIteratorNew s') < count s')
      by (destruct Hwf'; cbn; lia).
    destruct (HashSetIteratorNext_n_remaining s' Hwf' _ _ Hb
                (remaining_new s' Hwf')) as (j & Hrun & _).
    rewrite Hrun. reflexivity.
  - apply Forall_forall. intros z Hz Hz'.
    pose proof (inv_match_in_bucket s' z p Hinv' Hz (Hto_p z Hz')) as Hzin.
    change (hash_of s' p) with (hash_of s p) in Hzin. rewrite Hat in Hzin.
    rewrite Forall_forall in Hnone'. exact (Hnone' z Hzin Hz').
  - pose proof (all_elements_set_length s (hash_of s p) (l1 ++ l2) Hi) as Hlen.
    rewrite <- Hs', Hch, !length_app in Hlen. cbn [length] in Hlen. lia.
  - exists l1, x, l2. split; [exact Hch|]. split; [exact Hfound|exact Hat].
Qed.

(** ** Full iteration *)

Lemma all_elements_position s (j k : nat) es x :
  elements s !! j = Some es -> es !! k = Some x ->
  all_elements s !! (length (concat (take j (elements s))) + k)%nat = Some x.
Proof.
  intros Hj Hk. unfold all_elements.
  assert (Hsplit : concat (elements s) =
                   concat (take j (elements s)) ++ es ++
                   concat (drop (S j) (elements s))).
  { rewrite <- (take_drop_middle _ _ _ Hj) at 1.
    rewrite concat_app. reflexivity. }
  rewrite Hsplit.
  rewrite lookup_app_r by lia.
  replace (length (concat (take j (elements s))) + k -
           length (concat (take j (elements s))))%nat with k by lia.
  rewrite lookup_app_l by (apply lookup_lt_Some in Hk; exact Hk).
  exact Hk.
Qed.

Lemma omap_id_Some (l : list E) : omap id (map Some l) = l.
Proof.
  induction l as [|y l IH]; cbn; [reflexivity|]. f_equal. exact IH.
Qed.

(** C6.  On a table of [n] stored elements, [n + 1] calls of
    [HashSetIteratorNext] on a fresh iterator return the [n] elements
    and then [NULL]: the element at position [k] of the chain of
    bucket [j] comes out after all elements of the buckets before [j]
    and the [k] elements before it in its chain.  With [n = 0] the
    first call returns [NULL].  When the keys are unique, every stored
    element is the only one of its key in what was yielded. *)
Theorem HashSetIterator_yields_all s :
  HashSet_wf s ->
  let n := length (all_elements s) in
  let run := HashSetIteratorNext_n (S n) s (HashSetIteratorNew s) in
  fst run = map Some (all_elements s) ++ [None] /\
  count s <= bucket (snd run) /\
  (forall (j k : nat) es x,
     elements s !! j = Some es -> es !! k = Some x ->
     fst run !! (length (concat (take j (elements s))) + k)%nat =
       Some (Some x)) /\
  (n = O -> fst (HashSetIteratorNext s (HashSetIteratorNew s)) = None) /\
  (HashSet_inv s ->
   forall x, x ∈ all_elements s ->
     key_count (comparator s) x (omap id (fst run)) = 1%nat).
Proof.
  intros Hwf n run.
  assert (Hb : bucket (HashSetIteratorNew s) < count s)
    by (destruct Hwf; cbn; lia).
  destruct (HashSetIteratorNext_n_remaining s Hwf _ _ Hb (remaining_new s Hwf))
    as (j & Hrun & Hex).
  fold n in Hrun. fold run in Hrun. rewrite Hrun. cbn [fst snd].
  split; [reflexivity|]. split; [exact Hex|]. split; [|split].
  - intros j' k es x Hj Hk.
    pose proof (all_elements_position s j' k es x Hj Hk) as Hpos.
    rewrite lookup_app_l
      by (rewrite length_map; apply lookup_lt_Some in Hpos; exact Hpos).
    rewrite list_lookup_fmap, Hpos. reflexivity.
  - intros Hn0.
    pose proof (HashSetIteratorNext_remaining s Hwf _ _ (le_n _) Hb) as Hstep.
    rewrite (remaining_new s Hwf) in Hstep.
    destruct (all_elements s); [|discriminate].
    destruct Hstep as (i' & -> & _). reflexivity.
  - intros Hinv x Hx.
    assert (Hyield : omap id (map Some (all_elements s) ++ [None]) =
                     all_elements s).
    { rewrite omap_app. cbn. rewrite app_nil_r. apply omap_id_Some. }
    rewrite Hyield. apply inv_key_count_member; assumption.
Qed.

(** ** Termination: the loops run out of chain before they run out of fuel *)

Lemma while_loop_more {S R : Type} (body : S -> step S R) (n m : nat) st r :
  while_loop body n st = Some r -> (n <= m)%nat ->
  while_loop body m st = Some r.
Proof.
  revert m st. induction n as [|n IH]; intros m st; [discriminate|].
  intros Hrun Hle. destruct m as [|m]; [lia|]. cbn in *.
  destruct (body st) as [st'|r']; [|exact Hrun].
  apply IH; [exact Hrun|lia].
Qed.

Lemma while_loop_S {S R : Type} (body : S -> step S R) (n : nat) st :
  while_loop body (Datatypes.S n) st =
  match body st with
  | Return r => Some r
  | Continue st' => while_loop body n st'
  end.
Proof. reflexivity. Qed.

Lemma HashSetGet_loop cmp e es :
  while_loop (HashSetGet_body cmp e) (S (length es)) es =
  Some (HashSetGet_chain cmp e es).
Proof.
  induction es as [|x next IH]; [reflexivity|].
  cbn [length]. rewrite while_loop_S.
  cbn [HashSetGet_body HashSetGet_chain].
  destruct (cmp x e =? 0)%Z; [reflexivity|exact IH].
Qed.

Lemma HashSetAdd_loop cmp e es (passed : list E) :
  es <> [] ->
  while_loop (HashSetAdd_body cmp e) (length es) (passed, es) =
  Some (passed ++ HashSetAdd_chain cmp e es).
Proof.
  revert passed. induction es as [|x next IH]; intros passed Hne; [congruence|].
  cbn [length]. rewrite while_loop_S.
  cbn [HashSetAdd_body HashSetAdd_chain].
  destruct (cmp x e =? 0)%Z; [reflexivity|].
  destruct next as [|y next']; [reflexivity|].
  rewrite IH by discriminate. rewrite <- app_assoc. reflexivity.
Qed.

Lemma HashSetRemove_loop cmp e es (passed : list E) :
  while_loop (HashSetRemove_body cmp e) (S (length es)) (passed, es) =
  Some (passed ++ HashSetRemove_chain cmp e es).
Proof.
  revert passed. induction es as [|x next IH]; intros passed.
  - cbn. rewrite app_nil_r. reflexivity.
  - cbn [length]. rewrite while_loop_S.
    cbn [HashSetRemove_body HashSetRemove_chain].
    destruct (cmp x e =? 0)%Z; [reflexivity|].
    rewrite IH, <- app_assoc. reflexivity.
Qed.

Lemma HashSetIteratorNext_loop s (m : nat) (i : HashSetIterator) :
  (N.to_nat (count s - bucket i) <= m)%nat ->
  while_loop (HashSetIteratorNext_body s) (S m) i =
  Some (HashSetIteratorNext s i).
Proof.
  revert i. induction m as [|m IH]; intros i Hm;
    rewrite HashSetIteratorNext_eq, while_loop_S;
    unfold HashSetIteratorNext_body;
    destruct (N.ltb_spec (bucket i) (count s)) as [Hlt|Hge];
    try reflexivity; try lia.
  destruct (element i) as [|x next]; [|reflexivity].
  destruct (N.eqb_spec (bucket i + 1) (count s)) as [Heq|Hne]; [reflexivity|].
  apply IH. cbn. lia.
Qed.

(** C9.  On a table with at least one bucket every operation returns.
    [HashSetGet], [HashSetContains], [HashSetAdd] and [HashSetRemove]
    need no more loop iterations than the chain of the one bucket
    [hasher(element) % count] has nodes, plus one for the test that
    ends the loop; a call of [HashSetIteratorNext] needs no more than
    there are buckets left, plus one.  Each run computes the result of
    the operation, which is a function of its arguments.  A call of
    [HashSetIteratorNext] on a live cursor takes exactly the next node
    off what remains to be walked, so a full iteration passes each
    chain once. *)
Theorem operations_terminate s e (i : HashSetIterator) :
  HashSet_wf s ->
  (forall fuel : nat,
     (S (length (elements_at s (hash_of s e))) <= fuel)%nat ->
     HashSetGet_steps fuel s e = Some (HashSetGet s e) /\
     HashSetContains_steps fuel s e = Some (HashSetContains s e) /\
     HashSetAdd_steps fuel s e = Some (HashSetAdd s e) /\
     HashSetRemove_steps fuel s e = Some (HashSetRemove s e)) /\
  (forall fuel : nat,
     (S (N.to_nat (count s - bucket i)) <= fuel)%nat ->
     HashSetIteratorNext_steps fuel s i = Some (HashSetIteratorNext s i)) /\
  (bucket i < count s ->
   match remaining s i with
   | [] => fst (HashSetIteratorNext s i) = None
   | x :: rest =>
       fst (HashSetIteratorNext s i) = Some x /\
       remaining s (snd (HashSetIteratorNext s i)) = rest
   end).
Proof.
  intros Hwf. split; [|split].
  - intros fuel Hfuel.
    assert (Hget : HashSetGet_steps fuel s e = Some (HashSetGet s e)).
    { unfold HashSetGet_steps.
      exact (while_loop_more _ _ _ _ _ (HashSetGet_loop _ _ _) Hfuel). }
    split; [exact Hget|]. split; [|split].
    + unfold HashSetContains_steps, HashSetContains. rewrite Hget.
      destruct (HashSetGet s e); reflexivity.
    + unfold HashSetAdd_steps, HashSetAdd. fold (hash_of s e).
      destruct (elements_at s (hash_of s e)) as [|x next] eqn:Hch;
        [reflexivity|].
      rewrite (while_loop_more _ (length (x :: next)) fuel _ _
                 (HashSetAdd_loop (comparator s) e (x :: next) []
                    ltac:(discriminate)))
        by (cbn [length] in *; lia).
      reflexivity.
    + unfold HashSetRemove_steps. rewrite HashSetRemove_unfold.
      rewrite (while_loop_more _ _ fuel _ _
                 (HashSetRemove_loop (comparator s) e _ []) Hfuel).
      reflexivity.
  - intros fuel Hfuel. unfold HashSetIteratorNext_steps.
    exact (while_loop_more _ _ _ _ _
             (HashSetIteratorNext_loop s _ i (le_n _)) Hfuel).
  - intros Hlt.
    pose proof (HashSetIteratorNext_remaining s Hwf _ i (le_n _) Hlt) as Hstep.
    destruct (remaining s i) as [|x rest].
    + destruct Hstep as (i' & -> & _). reflexivity.
    + destruct Hstep as (i' & -> & _ & Hrem). split; [reflexivity|exact Hrem].
Qed.

(** * Further properties of the operations *)

(** ** The fresh table *)

Lemma elements_at_new (n : N) h cmp (i : N) :
  elements_at (HashSetNew n h cmp) i = [].
Proof.
  unfold elements_at. cbn.
  destruct (replicate (N.to_nat n) [] !! N.to_nat i) as [es|] eqn:Hi;
    [|reflexivity].
  apply lookup_replicate_1 in Hi as [-> _]. reflexivity.
Qed.

Lemma all_elements_new (n : N) h cmp : all_elements (HashSetNew n h cmp) = [].
Proof.
  unfold all_elements. cbn.
  induction (N.to_nat n) as [|k IH]; [reflexivity|exact IH].
Qed.

Lemma HashSetGet_new (n : N) h cmp p : HashSetGet (HashSetNew n h cmp) p = None.
Proof. unfold HashSetGet. rewrite elements_at_new. reflexivity. Qed.

(** X2.  A table fresh from [HashSetNew] has the bucket count asked
    for, every bucket head is null, no probe finds anything, and the
    first call of [HashSetIteratorNext] on a new iterator already
    returns [NULL]. *)
Theorem HashSetNew_empty (n : N) h cmp :
  1 <= n ->
  let s := HashSetNew n h cmp in
  count s = n /\ length (elements s) = N.to_nat n /\
  (forall i : N, elements_at s i = []) /\
  all_elements s = [] /\
  (forall p, HashSetGet s p = None /\ HashSetContains s p = false) /\
  fst (HashSetIteratorNext s (HashSetIteratorNew s)) = None /\
  count s <= bucket (snd (HashSetIteratorNext s (HashSetIteratorNew s))).
Proof.
  intros Hn s.
  assert (Hwf : HashSet_wf s)
    by (split; [exact Hn|cbn; apply length_replicate]).
  split; [reflexivity|]. split; [cbn; apply length_replicate|].
  split; [intros i; apply elements_at_new|].
  split; [apply all_elements_new|]. split.
  - intros p. unfold HashSetContains. unfold s. rewrite HashSetGet_new.
    split; reflexivity.
  - assert (Hb : bucket (HashSetIteratorNew s) < count s) by (cbn; lia).
    pose proof (HashSetIteratorNext_remaining s Hwf _ _ (le_n _) Hb) as Hstep.
    rewrite (remaining_new s Hwf) in Hstep. unfold s in Hstep at 1.
    rewrite all_elements_new in Hstep.
    destruct Hstep as (i' & -> & Hex). split; [reflexivity|exact Hex].
Qed.

(** ** Lookup, equation by equation *)

(** X3.  Lookup after an insertion: a probe that compares equal to the
    inserted element gets that element, every other probe gets what it
    got before. *)
Theorem HashSetGet_Add_spec s e p :
  HashSet_wf s -> key_laws (hasher s) (comparator s) ->
  HashSetGet (HashSetAdd s e) p =
  if (comparator s e p =? 0)%Z then Some e else HashSetGet s p.
Proof.
  intros Hwf Hlaws.
  destruct (Z.eqb_spec (comparator s e p) 0) as [Hep|Hep].
  - apply HashSetGet_Add_same; assumption.
  - apply HashSetGet_Add_other; assumption.
Qed.

Lemma find_app_first (f : E -> bool) l1 l2 :
  List.find f (l1 ++ l2) =
  match List.find f l1 with
  | Some x => Some x
  | None => List.find f l2
  end.
Proof.
  induction l1 as [|y l1 IH]; cbn; [reflexivity|].
  destruct (f y); [reflexivity|exact IH].
Qed.

Lemma find_nomatch cmp p l :
  Forall (fun y => cmp y p <> 0%Z) l -> List.find (matches cmp p) l = None.
Proof.
  induction 1 as [|y l Hy _ IH]; cbn; [reflexivity|].
  unfold matches at 1. apply Z.eqb_neq in Hy. rewrite Hy. exact IH.
Qed.

Lemma HashSetGet_chain_find cmp p es :
  HashSetGet_chain cmp p es = List.find (matches cmp p) es.
Proof.
  induction es as [|y es IH]; cbn; [reflexivity|].
  unfold matches at 1. destruct (cmp y p =? 0)%Z; [reflexivity|exact IH].
Qed.

Lemma HashSetGet_find s p :
  HashSet_inv s ->
  HashSetGet s p = List.find (matches (comparator s) p) (all_elements s).
Proof.
  intros Hinv. pose proof Hinv as (Hwf & _).
  destruct (inv_nomatch_outside s p Hinv) as [Hbefore Hafter].
  rewrite (all_elements_split s (hash_of s p) (hash_of_in_range s p Hwf)).
  rewrite !find_app_first, (find_nomatch _ _ _ Hbefore),
    (find_nomatch _ _ _ Hafter).
  unfold HashSetGet. fold (hash_of s p). rewrite HashSetGet_chain_find.
  destruct (List.find _ (elements_at s (hash_of s p))); reflexivity.
Qed.

(** X5.  Under the table invariant, walking the one chain selected by
    the hash finds what a search through all chains of the table would
    find: [HashSetContains] is true exactly when some stored element
    compares equal to the probe. *)
Theorem HashSetGet_searches_table s p :
  HashSet_inv s ->
  HashSetGet s p = List.find (matches (comparator s) p) (all_elements s) /\
  (HashSetContains s p = true <->
   exists x, x ∈ all_elements s /\ comparator s x p = 0%Z).
Proof.
  intros Hinv. pose proof (HashSetGet_find s p Hinv) as Hfind.
  split; [exact Hfind|]. unfold HashSetContains. split.
  - destruct (HashSetGet s p) as [x|] eqn:Hget; [|discriminate].
    intros _. exists x. exact (HashSetGet_Some s p x Hget).
  - intros (x & Hin & Hx). rewrite Hfind.
    destruct (List.find _ _) as [y|] eqn:Hy; [reflexivity|].
    exfalso. apply list_elem_of_In in Hin.
    pose proof (List.find_none _ _ Hy x Hin) as Hno.
    unfold matches in Hno. apply Z.eqb_neq in Hno. exact (Hno Hx).
Qed.

Lemma HashSetRemove_no_match s p :
  HashSet_inv s ->
  Forall (fun z => comparator s z p <> 0%Z) (all_elements (HashSetRemove s p)).
Proof.
  intros Hinv. pose proof Hinv as (Hwf & Hlaws & _).
  pose proof (hash_of_lt s p Hwf) as Hlt.
  pose proof (hash_of_in_range s p Hwf) as Hi.
  pose proof (HashSetRemove_inv s p Hinv) as Hinv'.
  destruct (inv_chain s _ Hinv Hlt) as [Hun _].
  assert (Hchain : Forall (fun z => comparator s z p <> 0%Z)
                     (elements_at (HashSetRemove s p) (hash_of s p))).
  { rewrite HashSetRemove_unfold, elements_at_set_eq by exact Hi.
    destruct (chain_match_cases (comparator s) p (elements_at s (hash_of s p)))
      as [Hall|(l1 & x & l2 & Hch & Hl1 & Hx)].
    - rewrite (HashSetRemove_chain_miss _ _ _ Hall). exact Hall.
    - rewrite Hch in *. rewrite (HashSetRemove_chain_hit _ _ _ _ _ Hl1 Hx).
      exact (chain_unique_first_match _ _ Hlaws p l1 x l2 Hun Hl1 Hx). }
  apply Forall_forall. intros z Hz Hzp.
  pose proof (inv_match_in_bucket _ z p Hinv' Hz Hzp) as Hzin.
  change (hash_of (HashSetRemove s p) p) with (hash_of s p) in Hzin.
  rewrite Forall_forall in Hchain. exact (Hchain z Hzin Hzp).
Qed.

Lemma HashSetGet_Remove_cases s q p :
  HashSet_inv s ->
  HashSetGet (HashSetRemove s q) p =
  if (comparator s q p =? 0)%Z then None else HashSetGet s p.
Proof.
  intros Hinv. pose proof Hinv as (Hwf & Hlaws & _).
  pose proof (hash_of_in_range s q Hwf) as Hi.
  destruct (Z.eqb_spec (comparator s q p) 0) as [Hqp|Hqp].
  - destruct (HashSetGet (HashSetRemove s q) p) as [x|] eqn:Hget;
      [|reflexivity].
    exfalso. apply HashSetGet_Some in Hget as [Hin Hx].
    pose proof (HashSetRemove_no_match s q Hinv) as Hnone.
    rewrite Forall_forall in Hnone. apply (Hnone x Hin).
    exact (match_transfer _ _ Hlaws q p x Hqp Hx).
  - rewrite HashSetRemove_unfold.
    destruct (chain_match_cases (comparator s) q (elements_at s (hash_of s q)))
      as [Hall|(l1 & x & l2 & Hch & Hl1 & Hx)].
    + rewrite (HashSetRemove_chain_miss _ _ _ Hall), elements_set_same.
      reflexivity.
    + rewrite Hch, (HashSetRemove_chain_hit _ _ _ _ _ Hl1 Hx).
      unfold HashSetGet. cbn. fold (hash_of s p).
      destruct (decide (hash_of s q = hash_of s p)) as [Heq|Hne].
      * rewrite <- Heq, elements_at_set_eq, Hch by exact Hi.
        rewrite !HashSetGet_chain_app. cbn.
        assert (Hxp : (comparator s x p =? 0)%Z = false).
        { apply Z.eqb_neq. intros Hxp. apply Hqp.
          eapply cmp_trans; [exact Hlaws| |exact Hxp].
          apply (cmp_sym _ _ Hlaws). exact Hx. }
        rewrite Hxp. reflexivity.
      * rewrite elements_at_set_ne by exact Hne. reflexivity.
Qed.

(** X4.  Lookup after a removal, under the table invariant: a probe
    that compares equal to the removed key finds nothing, every other
    probe gets what it got before; [HashSetContains] follows suit. *)
Theorem HashSetGet_Remove_spec s q p :
  HashSet_inv s ->
  HashSetGet (HashSetRemove s q) p =
    (if (comparator s q p =? 0)%Z then None else HashSetGet s p) /\
  HashSetContains (HashSetRemove s q) p =
    (if (comparator s q p =? 0)%Z then false else HashSetContains s p).
Proof.
  intros Hinv. pose proof (HashSetGet_Remove_cases s q p Hinv) as Hget.
  split; [exact Hget|].
  unfold HashSetContains. rewrite Hget.
  destruct (comparator s q p =? 0)%Z; reflexivity.
Qed.

(** ** How the operations compose *)

Lemma elements_set_twice s (i : N) (a b : list E) :
  elements_set (elements_set s i a) i b = elements_set s i b.
Proof.
  unfold elements_set. cbn. f_equal. apply list_insert_insert_eq.
Qed.


(** X6.  Inserting the same element twice in a row is the same as
    inserting it once. *)
Theorem HashSetAdd_idempotent s e :
  HashSet_wf s -> comparator s e e = 0%Z ->
  HashSetAdd (HashSetAdd s e) e = HashSetAdd s e.
Proof.
  intros Hwf Hee. pose proof (hash_of_in_range s e Hwf) as Hi.
  assert (Hagain : forall l1 l2,
    Forall (fun y => comparator s y e <> 0%Z) l1 ->
    HashSetAdd (elements_set s (hash_of s e) (l1 ++ e :: l2)) e =
    elements_set s (hash_of s e) (l1 ++ e :: l2)).
  { intros l1 l2 Hl1.
    rewrite (HashSetAdd_hit (elements_set s (hash_of s e) (l1 ++ e :: l2))
               e l1 e l2).
    - apply elements_set_twice.
    - apply elements_at_set_eq. exact Hi.
    - exact Hl1.
    - exact Hee. }
  destruct (chain_match_cases (comparator s) e (elements_at s (hash_of s e)))
    as [Hall|(l1 & x & l2 & Hch & Hl1 & Hx)].
  - rewrite (HashSetAdd_miss s e Hall). apply (Hagain _ [] Hall).
  - rewrite (HashSetAdd_hit s e l1 x l2 Hch Hl1 Hx). apply (Hagain _ _ Hl1).
Qed.

(** X7.  Inserting an element under a key that its bucket does not
    hold and removing it again gives back the table as it was. *)
Theorem HashSetRemove_Add_cancel s e :
  HashSet_wf s -> comparator s e e = 0%Z ->
  Forall (fun y => comparator s y e <> 0%Z) (elements_at s (hash_of s e)) ->
  HashSetRemove (HashSetAdd s e) e = s.
Proof.
  intros Hwf Hee Hall. pose proof (hash_of_in_range s e Hwf) as Hi.
  rewrite (HashSetAdd_miss s e Hall), HashSetRemove_unfold.
  change (hash_of (elements_set s (hash_of s e) _) e) with (hash_of s e).
  rewrite elements_at_set_eq by exact Hi. cbn [comparator elements_set].
  rewrite (HashSetRemove_chain_hit _ _ _ _ [] Hall Hee), app_nil_r.
  rewrite elements_set_twice. apply elements_set_same.
Qed.

(** X9.  Under the table invariant a second removal with the same
    probe changes nothing: the first one took the only element of
    that key. *)
Theorem HashSetRemove_idempotent s p :
  HashSet_inv s ->
  HashSetRemove (HashSetRemove s p) p = HashSetRemove s p.
Proof.
  intros Hinv.
  pose proof (HashSetRemove_no_match s p Hinv) as Hnone.
  rewrite (HashSetRemove_unfold (HashSetRemove s p) p).
  rewrite HashSetRemove_chain_miss; [apply elements_set_same|].
  apply Forall_forall. intros z Hz.
  rewrite Forall_forall in Hnone. apply Hnone.
  exact (elements_at_member _ _ z Hz).
Qed.



(** ** Tables built by sequences of calls *)

Lemma latest_match_Exists cmp p (es : list E) :
  (exists e, latest_match cmp p es = Some e) <->
  Exists (fun e => cmp e p = 0%Z) es.
Proof.
  unfold latest_match. split.
  - intros [e He]. apply List.find_some in He as [Hin Hm].
    apply Exists_exists. exists e. split.
    + apply list_elem_of_In. apply List.in_rev. exact Hin.
    + apply Z.eqb_eq. exact Hm.
  - intros Hex. apply Exists_exists in Hex as (e & Hin & He).
    destruct (List.find (matches cmp p) (rev es)) as [x|] eqn:Hfind;
      [exists x; reflexivity|].
    exfalso. apply list_elem_of_In, List.in_rev in Hin.
    pose proof (List.find_none _ _ Hfind e Hin) as Hno.
    unfold matches in Hno. apply Z.eqb_neq in Hno. exact (Hno He).
Qed.

(** X1.  On a table filled by insertions only, a lookup returns the
    element inserted last among those that compare equal to the probe,
    and nothing when no inserted element does: keys never inserted are
    absent. *)
Theorem HashSetGet_inserted (n : N) h cmp (es : list E) p :
  1 <= n -> key_laws h cmp ->
  let s := fold_left HashSetAdd es (HashSetNew n h cmp) in
  HashSetGet s p = latest_match cmp p es /\
  (HashSetContains s p = true <-> Exists (fun e => cmp e p = 0%Z) es) /\
  (Forall (fun e => cmp e p <> 0%Z) es -> HashSetGet s p = None).
Proof.
  intros Hn Hlaws s.
  assert (Hwf : HashSet_wf (HashSetNew n h cmp))
    by (split; [exact Hn|cbn; apply length_replicate]).
  pose proof (HashSetGet_fold_Add (HashSetNew n h cmp) es p Hwf Hlaws) as Hget.
  rewrite HashSetGet_new in Hget. fold s in Hget.
  change (comparator (HashSetNew n h cmp)) with cmp in Hget.
  assert (Heq : HashSetGet s p = latest_match cmp p es)
    by (rewrite Hget; destruct (latest_match cmp p es); reflexivity).
  split; [exact Heq|]. split.
  - rewrite <- latest_match_Exists. unfold HashSetContains. rewrite Heq.
    destruct (latest_match cmp p es) as [e|].
    + split; [intros _; exists e; reflexivity|reflexivity].
    + split; [discriminate|intros [e He]; discriminate].
  - intros Hall. rewrite Heq.
    destruct (latest_match cmp p es) as [e|] eqn:Hl; [|reflexivity].
    exfalso. assert (Hex : Exists (fun e => cmp e p = 0%Z) es)
      by (apply latest_match_Exists; exists e; exact Hl).
    apply Exists_exists in Hex as (x & Hin & Hx).
    rewrite Forall_forall in Hall. exact (Hall x Hin Hx).
Qed.

Lemma run_ops_snoc (ops : list (@operation E)) o s :
  run_ops (ops ++ [o]) s = apply_op (run_ops ops s) o.
Proof. unfold run_ops. rewrite fold_left_app. reflexivity. Qed.

Lemma run_ops_reachable (n : N) h cmp (ops : list (@operation E)) :
  1 <= n -> reachable h cmp (run_ops ops (HashSetNew n h cmp)).
Proof.
  intros Hn. induction ops as [|o ops IH] using rev_ind.
  - constructor. exact Hn.
  - rewrite run_ops_snoc. destruct o; constructor; exact IH.
Qed.

Lemma run_ops_count (ops : list (@operation E)) s :
  count (run_ops ops s) = count s /\
  length (elements (run_ops ops s)) = length (elements s).
Proof.
  induction ops as [|o ops [IHc IHl]] using rev_ind; [split; reflexivity|].
  rewrite run_ops_snoc. destruct o as [e|e]; cbn [apply_op].
  - destruct (HashSetAdd_writes_one (run_ops ops s) e) as [es' ->].
    cbn. rewrite length_insert. split; assumption.
  - rewrite HashSetRemove_unfold. cbn. rewrite length_insert.
    split; assumption.
Qed.

(** X13.  Whatever insertions and removals are applied to a fresh
    table, in whatever order, the bucket count and the callbacks stay
    those given to [HashSetNew], the bucket array keeps its length,
    every stored element sits in the bucket its hash selects, and at
    most one stored element compares equal to any probe. *)
Theorem run_ops_invariant (n : N) h cmp (ops : list (@operation E)) :
  1 <= n -> key_laws h cmp ->
  let s := run_ops ops (HashSetNew n h cmp) in
  count s = n /\ length (elements s) = N.to_nat n /\
  hasher s = h /\ comparator s = cmp /\
  placed s /\
  (forall p, (key_count cmp p (all_elements s) <= 1)%nat).
Proof.
  intros Hn Hlaws s.
  destruct (reachable_inv h cmp s Hlaws (run_ops_reachable n h cmp ops Hn))
    as (Hinv & Hh & Hc).
  destruct (run_ops_count ops (HashSetNew n h cmp)) as [Hcount Hlen].
  cbn in Hcount, Hlen. rewrite length_replicate in Hlen.
  split; [exact Hcount|]. split; [exact Hlen|].
  split; [exact Hh|]. split; [exact Hc|].
  split; [exact (proj1 (proj2 (proj2 Hinv)))|].
  intros p. rewrite <- Hc. apply inv_key_count_le. exact Hinv.
Qed.

(** ** The table against a plain list *)

Section Model_laws.

Context (h : @Hasher E) (cmp : @Comparator E) (Hlaws : key_laws h cmp).

Lemma model_get_filter_other e p (m : list E) :
  cmp e p <> 0%Z ->
  List.find (matches cmp p) (List.filter (fun x => negb (matches cmp e x)) m)
  = List.find (matches cmp p) m.
Proof.
  intros Hep. induction m as [|x m IH]; [reflexivity|].
  cbn [List.filter List.find].
  destruct (matches cmp e x) eqn:Hxe; destruct (matches cmp p x) eqn:Hxp;
    cbn [negb List.find]; rewrite ?Hxp; try reflexivity; try exact IH.
  exfalso. unfold matches in Hxe, Hxp.
  apply Z.eqb_eq in Hxe. apply Z.eqb_eq in Hxp. apply Hep.
  eapply cmp_trans; [exact Hlaws| |exact Hxp].
  apply (cmp_sym _ _ Hlaws). exact Hxe.
Qed.

Lemma model_get_filter_same e p (m : list E) :
  cmp e p = 0%Z ->
  List.find (matches cmp p) (List.filter (fun x => negb (matches cmp e x)) m)
  = None.
Proof.
  intros Hep. apply find_nomatch. apply Forall_forall. intros x Hx Hxp.
  apply list_elem_of_In, List.filter_In in Hx as [_ Hkeep].
  unfold matches in Hkeep. apply negb_true_iff, Z.eqb_neq in Hkeep.
  apply Hkeep. exact (match_transfer _ _ Hlaws e p x Hep Hxp).
Qed.

End Model_laws.

(** X14.  Refinement: after any sequence of insertions and removals on
    a fresh table, a lookup returns what the same calls return on a
    plain list of elements.  The bucket count and the hasher have no
    influence on what is found. *)
Theorem HashSet_refines_model (n : N) h cmp (ops : list (@operation E)) p :
  1 <= n -> key_laws h cmp ->
  HashSetGet (run_ops ops (HashSetNew n h cmp)) p =
  model_get cmp p (run_model cmp ops).
Proof.
  intros Hn Hlaws. revert p.
  induction ops as [|o ops IH] using rev_ind; intros p.
  - apply HashSetGet_new.
  - rewrite run_ops_snoc. unfold run_model. rewrite fold_left_app.
    fold (run_model cmp ops). cbn [fold_left].
    destruct (reachable_inv h cmp _ Hlaws (run_ops_reachable n h cmp ops Hn))
      as (Hinv & Hh & Hc).
    pose proof Hinv as (Hwf & Hlaws' & _).
    destruct o as [e|q]; cbn [apply_op model_op].
    + unfold model_get, model_add. cbn [List.find]. unfold matches at 1.
      destruct (Z.eqb_spec (cmp e p) 0) as [Hep|Hep].
      * apply HashSetGet_Add_same; [exact Hwf|exact Hlaws'|].
        rewrite Hc. exact Hep.
      * rewrite HashSetGet_Add_other;
          [|exact Hwf|exact Hlaws'|rewrite Hc; exact Hep].
        rewrite (model_get_filter_other h cmp Hlaws e p _ Hep). apply IH.
    + rewrite (HashSetGet_Remove_cases _ q p Hinv), Hc.
      unfold model_get, model_remove.
      destruct (Z.eqb_spec (cmp q p) 0) as [Hqp|Hqp].
      * rewrite (model_get_filter_same h cmp Hlaws q p _ Hqp). reflexivity.
      * rewrite (model_get_filter_other h cmp Hlaws q p _ Hqp). apply IH.
Qed.

(** ** Filling and emptying a table *)

Lemma all_elements_set_elem s (i : N) (es' : list E) x :
  (N.to_nat i < length (elements s))%nat ->
  x ∈ all_elements (elements_set s i es') -> x ∈ es' \/ x ∈ all_elements s.
Proof.
  intros Hi.
  rewrite (all_elements_set s i es' Hi), (all_elements_split s i Hi).
  rewrite !elem_of_app. tauto.
Qed.

Lemma HashSetAdd_elem s e x :
  HashSet_wf s -> x ∈ all_elements (HashSetAdd s e) ->
  x = e \/ x ∈ all_elements s.
Proof.
  intros Hwf. pose proof (hash_of_in_range s e Hwf) as Hi.
  destruct (chain_match_cases (comparator s) e (elements_at s (hash_of s e)))
    as [Hall|(l1 & x0 & l2 & Hch & Hl1 & Hx0)].
  - rewrite (HashSetAdd_miss s e Hall). intros Hx.
    apply all_elements_set_elem in Hx as [Hx|Hx]; [|right; exact Hx|exact Hi].
    apply elem_of_app in Hx as [Hx|Hx].
    + right. exact (elements_at_member s _ x Hx).
    + left. apply list_elem_of_singleton. exact Hx.
  - rewrite (HashSetAdd_hit s e l1 x0 l2 Hch Hl1 Hx0). intros Hx.
    apply all_elements_set_elem in Hx as [Hx|Hx]; [|right; exact Hx|exact Hi].
    apply elem_of_app in Hx as [Hx|Hx].
    + right. apply (elements_at_member s (hash_of s e)). rewrite Hch.
      apply elem_of_app. left. exact Hx.
    + apply elem_of_cons in Hx as [Hx|Hx]; [left; exact Hx|right].
      apply (elements_at_member s (hash_of s e)). rewrite Hch.
      apply elem_of_app. right. apply elem_of_cons. right. exact Hx.
Qed.

Lemma fold_HashSetAdd_elem s (es : list E) x :
  HashSet_wf s -> x ∈ all_elements (fold_left HashSetAdd es s) ->
  x ∈ all_elements s \/ x ∈ es.
Proof.
  intros Hwf. induction es as [|e es IH] using rev_ind; [left; assumption|].
  rewrite fold_left_app. cbn. intros Hx.
  destruct (fold_HashSetAdd_fields s es Hwf) as (Hwf' & _).
  apply HashSetAdd_elem in Hx as [->|Hx]; [| |exact Hwf'].
  - right. apply elem_of_app. right. apply list_elem_of_singleton. reflexivity.
  - destruct (IH Hx) as [H|H]; [left; exact H|right].
    apply elem_of_app. left. exact H.
Qed.

Lemma HashSetRemove_chain_elem cmp p es x :
  x ∈ HashSetRemove_chain cmp p es -> x ∈ es.
Proof.
  induction es as [|y es IH]; cbn; [trivial|].
  destruct (cmp y p =? 0)%Z; rewrite !elem_of_cons; [tauto|].
  intros [H|H]; [left; exact H|right; exact (IH H)].
Qed.

Lemma HashSetRemove_elem s p x :
  HashSet_wf s -> x ∈ all_elements (HashSetRemove s p) -> x ∈ all_elements s.
Proof.
  intros Hwf. rewrite HashSetRemove_unfold. intros Hx.
  apply all_elements_set_elem in Hx as [Hx|Hx];
    [|exact Hx|exact (hash_of_in_range s p Hwf)].
  apply HashSetRemove_chain_elem in Hx. exact (elements_at_member s _ x Hx).
Qed.

Lemma fold_HashSetRemove_fields s (es : list E) :
  count (fold_left HashSetRemove es s) = count s /\
  hasher (fold_left HashSetRemove es s) = hasher s /\
  comparator (fold_left HashSetRemove es s) = comparator s.
Proof.
  revert s. induction es as [|e es IH]; intros s; [repeat split|].
  cbn. destruct (IH (HashSetRemove s e)) as (-> & -> & ->). repeat split.
Qed.

Lemma fold_HashSetRemove_clears s (es : list E) :
  HashSet_inv s ->
  (forall x, x ∈ all_elements s ->
     Exists (fun e => comparator s x e = 0%Z) es) ->
  HashSet_inv (fold_left HashSetRemove es s) /\
  all_elements (fold_left HashSetRemove es s) = [].
Proof.
  revert s. induction es as [|e es IH]; intros s Hinv Hcover.
  - split; [exact Hinv|]. cbn.
    destruct (all_elements s) as [|x l] eqn:Hall; [reflexivity|].
    exfalso. assert (Hx : x ∈ x :: l) by (apply elem_of_cons; left; reflexivity).
    pose proof (Hcover x Hx) as Hex. inversion Hex.
  - cbn. pose proof Hinv as (Hwf & _).
    apply IH; [apply HashSetRemove_inv; exact Hinv|].
    intros x Hx. change (comparator (HashSetRemove s e)) with (comparator s).
    pose proof (HashSetRemove_no_match s e Hinv) as Hnone.
    rewrite Forall_forall in Hnone. pose proof (Hnone x Hx) as Hxe.
    apply HashSetRemove_elem in Hx; [|exact Hwf].
    pose proof (Hcover x Hx) as Hex.
    apply Exists_cons in Hex as [Hex|Hex]; [contradiction|exact Hex].
Qed.

Lemma fold_HashSetAdd_count s (es : list E) :
  count (fold_left HashSetAdd es s) = count s.
Proof.
  revert s. induction es as [|e es IH]; intros s; [reflexivity|].
  cbn. rewrite IH. apply HashSetAdd_fields.
Qed.

Lemma concat_nil_replicate (bs : list (list E)) :
  concat bs = [] -> bs = replicate (length bs) [].
Proof.
  induction bs as [|es bs IH]; cbn; [reflexivity|].
  intros Happ. apply app_eq_nil in Happ as [-> Hbs].
  rewrite <- (IH Hbs). reflexivity.
Qed.

Lemma empty_table_is_new s :
  HashSet_wf s -> all_elements s = [] ->
  s = HashSetNew (count s) (hasher s) (comparator s).
Proof.
  intros [_ Hlen] Hall. destruct s as [n bs h c]. unfold HashSetNew. cbn in *.
  f_equal. rewrite <- Hlen. apply concat_nil_replicate. exact Hall.
Qed.

(** X10.  Inserting a sequence of elements into a fresh table and then
    removing each of them gives back the fresh table, whether or not
    keys repeat in the sequence. *)
Theorem HashSetRemove_all_inserted (n : N) h cmp (es : list E) :
  1 <= n -> key_laws h cmp ->
  fold_left HashSetRemove es (fold_left HashSetAdd es (HashSetNew n h cmp)) =
  HashSetNew n h cmp.
Proof.
  intros Hn Hlaws.
  set (s0 := HashSetNew n h cmp). set (s := fold_left HashSetAdd es s0).
  assert (Hwf0 : HashSet_wf s0)
    by (split; [exact Hn|cbn; apply length_replicate]).
  assert (Hreach : reachable h cmp s)
    by (apply fold_HashSetAdd_reachable; constructor; exact Hn).
  destruct (reachable_inv h cmp s Hlaws Hreach) as (Hinv & Hh & Hc).
  pose proof (fold_HashSetAdd_count s0 es) as Hcount.
  fold s in Hcount. cbn in Hcount.
  assert (Hcover : forall x, x ∈ all_elements s ->
                     Exists (fun e => comparator s x e = 0%Z) es).
  { intros x Hx. apply fold_HashSetAdd_elem in Hx as [Hx|Hx]; [| |exact Hwf0].
    - unfold s0 in Hx. rewrite all_elements_new in Hx. inversion Hx.
    - apply Exists_exists. exists x. split; [exact Hx|].
      rewrite Hc. apply (cmp_refl _ _ Hlaws). }
  destruct (fold_HashSetRemove_clears s es Hinv Hcover) as [Hinv' Hempty].
  destruct (fold_HashSetRemove_fields s es) as (Hcount' & Hh' & Hc').
  rewrite (empty_table_is_new _ (proj1 Hinv') Hempty).
  rewrite Hcount', Hh', Hc', Hcount, Hh, Hc. reflexivity.
Qed.

Lemma HashSetAdd_miss_Permutation s e :
  HashSet_wf s ->
  Forall (fun y => comparator s y e <> 0%Z) (elements_at s (hash_of s e)) ->
  all_elements (HashSetAdd s e) ≡ₚ all_elements s ++ [e].
Proof.
  intros Hwf Hall. pose proof (hash_of_in_range s e Hwf) as Hi.
  rewrite (HashSetAdd_miss s e Hall).
  rewrite (all_elements_set s _ _ Hi), (all_elements_split s _ Hi).
  rewrite <- !app_assoc. do 2 apply Permutation_app_head.
  apply Permutation_app_comm.
Qed.

(** X11.  When a sequence of elements with pairwise different keys is
    inserted into a fresh table, every insertion allocates a node: the
    table holds exactly the inserted elements, in some order, and an
    iteration yields them all and then [NULL]. *)
Theorem HashSetAdd_distinct_keys (n : N) h cmp (es : list E) :
  1 <= n -> chain_unique cmp es ->
  let s := fold_left HashSetAdd es (HashSetNew n h cmp) in
  all_elements s ≡ₚ es /\
  length (all_elements s) = length es /\
  fst (HashSetIteratorNext_n (S (length es)) s (HashSetIteratorNew s)) =
    map Some (all_elements s) ++ [None].
Proof.
  intros Hn Hun s.
  assert (Hwf0 : HashSet_wf (HashSetNew n h cmp))
    by (split; [exact Hn|cbn; apply length_replicate]).
  assert (Hperm : all_elements s ≡ₚ es).
  { unfold s. clear s. induction es as [|e es IH] using rev_ind.
    - cbn [fold_left]. rewrite all_elements_new. reflexivity.
    - apply chain_unique_app in Hun as (Hes & _ & Hcross).
      rewrite fold_left_app. cbn [fold_left].
      destruct (fold_HashSetAdd_fields _ es Hwf0) as (Hwf & _ & Hc).
      cbn in Hc.
      rewrite HashSetAdd_miss_Permutation; [rewrite (IH Hes); reflexivity
                                           |exact Hwf|].
      apply Forall_forall. intros y Hy. rewrite Hc.
      apply elements_at_member in Hy. rewrite (IH Hes) in Hy.
      rewrite Forall_forall in Hcross. pose proof (Hcross y Hy) as Hye.
      exact (List.Forall_inv Hye). }
  assert (Hlen : length (all_elements s) = length es)
    by (rewrite Hperm; reflexivity).
  split; [exact Hperm|]. split; [exact Hlen|].
  destruct (fold_HashSetAdd_fields _ es Hwf0) as (Hwf & _). fold s in Hwf.
  assert (Hb : bucket (HashSetIteratorNew s) < count s)
    by (destruct Hwf; cbn; lia).
  destruct (HashSetIteratorNext_n_remaining s Hwf _ _ Hb (remaining_new s Hwf))
    as (j & Hrun & _).
  rewrite <- Hlen, Hrun. reflexivity.
Qed.

(** ** Any number of iterator calls *)

Lemma HashSetIteratorNext_n_add s (a b : nat) (i : HashSetIterator) :
  HashSetIteratorNext_n (a + b) s i =
  (fst (HashSetIteratorNext_n a s i) ++
   fst (HashSetIteratorNext_n b s (snd (HashSetIteratorNext_n a s i))),
   snd (HashSetIteratorNext_n b s (snd (HashSetIteratorNext_n a s i)))).
Proof.
  revert i. induction a as [|a IH]; intros i.
  - cbn. destruct (HashSetIteratorNext_n b s i). reflexivity.
  - cbn [Nat.add HashSetIteratorNext_n].
    destruct (HashSetIteratorNext s i) as [r i1].
    rewrite IH. destruct (HashSetIteratorNext_n a s i1) as [rs i2].
    cbn [fst snd]. reflexivity.
Qed.

Lemma HashSetIteratorNext_n_length s (k : nat) (i : HashSetIterator) :
  length (fst (HashSetIteratorNext_n k s i)) = k.
Proof.
  revert i. induction k as [|k IH]; intros i; [reflexivity|].
  cbn [HashSetIteratorNext_n]. destruct (HashSetIteratorNext s i) as [r i1].
  pose proof (IH i1) as Hk. destruct (HashSetIteratorNext_n k s i1) as [rs i2].
  cbn in *. rewrite Hk. reflexivity.
Qed.

(** X12.  However many times [HashSetIteratorNext] is called on a new
    iterator of an unchanged table, the calls return the stored
    elements in order for as long as there are any, and [NULL] from
    then on. *)
Theorem HashSetIteratorNext_any_calls s (k : nat) :
  HashSet_wf s ->
  fst (HashSetIteratorNext_n k s (HashSetIteratorNew s)) =
  map Some (take k (all_elements s)) ++
  replicate (k - length (all_elements s)) None.
Proof.
  intros Hwf.
  assert (Hb : bucket (HashSetIteratorNew s) < count s)
    by (destruct Hwf; cbn; lia).
  destruct (HashSetIteratorNext_n_remaining s Hwf _ _ Hb (remaining_new s Hwf))
    as (j & Hrun & Hex).
  set (n := length (all_elements s)) in *.
  destruct (le_lt_dec k n) as [Hle|Hgt].
  - pose proof (HashSetIteratorNext_n_add s k (S n - k)
                  (HashSetIteratorNew s)) as Hadd.
    replace (k + (S n - k))%nat with (S n) in Hadd by lia.
    rewrite Hrun in Hadd. apply (f_equal fst) in Hadd. cbn [fst] in Hadd.
    apply (f_equal (take k)) in Hadd.
    rewrite (take_app_length'
               (fst (HashSetIteratorNext_n k s (HashSetIteratorNew s)))) in Hadd
      by (symmetry; apply HashSetIteratorNext_n_length).
    rewrite <- Hadd.
    rewrite take_app_le by (rewrite length_map; exact Hle).
    replace (k - n)%nat with O by lia. cbn [replicate].
    rewrite app_nil_r. rewrite <- fmap_take. reflexivity.
  - pose proof (HashSetIteratorNext_n_add s (S n) (k - S n)
                  (HashSetIteratorNew s)) as Hadd.
    replace (S n + (k - S n))%nat with k in Hadd by lia.
    rewrite Hrun in Hadd. cbn [fst snd] in Hadd.
    rewrite (HashSetIteratorNext_n_exhausted s j _ Hex) in Hadd.
    rewrite Hadd. cbn [fst].
    rewrite take_ge by (fold n; lia).
    replace (k - n)%nat with (S (k - S n)) by lia.
    rewrite <- app_assoc. reflexivity.
Qed.

End Properties.

(** * The helpers of [util.c] and the callbacks of [test.c] *)

Section Callbacks.

Import Util.

Lemma poly31_mod (cs : list N) (h : N) :
  poly31 (h mod SIZE_MAX_plus_1) cs mod SIZE_MAX_plus_1 =
  poly31 h cs mod SIZE_MAX_plus_1.
Proof.
  revert h. induction cs as [|c cs IH]; intros h.
  - cbn [poly31 fold_left]. apply N.Div0.mod_mod.
  - unfold poly31 in *. cbn [fold_left].
    rewrite <- (IH (31 * (h mod SIZE_MAX_plus_1) + c)), <- (IH (31 * h + c)).
    f_equal. f_equal.
    rewrite <- N.Div0.add_mod_idemp_l, N.Div0.mul_mod_idemp_r.
    rewrite N.Div0.add_mod_idemp_l. reflexivity.
Qed.

Lemma StringHash_from_poly (s : string) (h : N) :
  h < SIZE_MAX_plus_1 ->
  StringHash_from h s = poly31 h (c_str s) mod SIZE_MAX_plus_1.
Proof.
  revert h. induction s as [|c rest IH]; intros h Hh;
    cbn [StringHash_from c_str].
  - cbn [poly31 fold_left]. symmetry. apply N.mod_small. exact Hh.
  - destruct (uchar c =? 0).
    + cbn [poly31 fold_left]. symmetry. apply N.mod_small. exact Hh.
    + rewrite IH by (apply N.mod_lt; discriminate).
      rewrite poly31_mod. reflexivity.
Qed.

Lemma c_str_cut (a rest : string) :
  c_str (a ++ String Ascii.zero rest) = c_str a.
Proof.
  induction a as [|c a IH]; cbn; [reflexivity|].
  destruct (uchar c =? 0); [reflexivity|]. rewrite IH. reflexivity.
Qed.

(** X15.  [StringHash] computes the base-31 polynomial of the bytes of
    the C string, reduced to [size_t]: reducing after every step gives
    the same value as reducing the exact sum once.  The hash depends
    only on the bytes before the first [NUL]. *)
Theorem StringHash_polynomial (s : string) :
  StringHash s = poly31 0 (c_str s) mod SIZE_MAX_plus_1 /\
  StringHash s < SIZE_MAX_plus_1 /\
  (forall rest, StringHash (s ++ String Ascii.zero rest) = StringHash s) /\
  (forall s', c_str s = c_str s' -> StringHash s = StringHash s').
Proof.
  assert (H0 : 0 < SIZE_MAX_plus_1) by reflexivity.
  assert (Hpoly : forall t, StringHash t = poly31 0 (c_str t) mod SIZE_MAX_plus_1)
    by (intros t; apply StringHash_from_poly; exact H0).
  split; [apply Hpoly|]. split; [|split].
  - rewrite Hpoly. apply N.mod_lt. discriminate.
  - intros rest. rewrite !Hpoly, c_str_cut. reflexivity.
  - intros s' Heq. rewrite !Hpoly, Heq. reflexivity.
Qed.

Lemma strcmp_zero_iff (a b : string) : strcmp a b = 0%Z <-> c_str a = c_str b.
Proof.
  revert b. induction a as [|ca ra IH]; intros [|cb rb];
    cbn [strcmp c_str].
  - tauto.
  - destruct (N.eqb_spec (uchar cb) 0); split; intros; try congruence; lia.
  - destruct (N.eqb_spec (uchar ca) 0); split; intros; try congruence; lia.
  - destruct (N.eqb_spec (uchar ca) (uchar cb)) as [Heq|Hne].
    + rewrite <- Heq. destruct (N.eqb_spec (uchar ca) 0); [tauto|].
      rewrite IH. split; [intros ->; reflexivity|intros [= H]; exact H].
    + destruct (N.eqb_spec (uchar ca) 0); destruct (N.eqb_spec (uchar cb) 0);
        split; intros; try congruence; lia.
Qed.

Lemma strcmp_antisym (a b : string) : strcmp b a = (- strcmp a b)%Z.
Proof.
  revert b. induction a as [|ca ra IH]; intros [|cb rb]; cbn [strcmp];
    try lia.
  rewrite (N.eqb_sym (uchar cb)).
  destruct (N.eqb_spec (uchar ca) (uchar cb)) as [Heq|Hne]; [|lia].
  rewrite <- Heq. destruct (uchar ca =? 0); [reflexivity|apply IH].
Qed.

(** X16.  [StringEquals] is true exactly when the two C strings hold
    the same bytes before their first [NUL]; swapping the arguments of
    [strcmp] flips the sign of its result. *)
Theorem StringEquals_spec (a b : string) :
  (StringEquals a b = true <-> c_str a = c_str b) /\
  StringEquals a b = StringEquals b a /\
  Z.sgn (strcmp b a) = (- Z.sgn (strcmp a b))%Z.
Proof.
  unfold StringEquals. split; [|split].
  - rewrite Z.eqb_eq. apply strcmp_zero_iff.
  - rewrite (strcmp_antisym a b).
    destruct (Z.eqb_spec (strcmp a b) 0) as [->|Hne]; [reflexivity|].
    symmetry. apply Z.eqb_neq. lia.
  - rewrite (strcmp_antisym a b). apply Z.sgn_opp.
Qed.

Lemma FileIDComparator_zero (a b : FileIDs.FileID) :
  FileIDs.FileIDComparator a b = 0%Z <->
  (FileIDs.device a, FileIDs.inode a) = (FileIDs.device b, FileIDs.inode b).
Proof.
  unfold FileIDs.FileIDComparator.
  destruct (Z.ltb_spec (FileIDs.device a) (FileIDs.device b));
    destruct (Z.ltb_spec (FileIDs.device b) (FileIDs.device a));
    destruct (Z.ltb_spec (FileIDs.inode a) (FileIDs.inode b));
    destruct (Z.ltb_spec (FileIDs.inode b) (FileIDs.inode a));
    split; try discriminate; try (intros [= Hd Hi]; lia);
    intros _; f_equal; lia.
Qed.

Lemma Word_key_laws : key_laws Words.WordHash Words.WordCompare.
Proof.
  apply (key_laws_of_key (fun w => c_str (Words.word w))
           (fun cs => poly31 0 cs mod SIZE_MAX_plus_1)).
  - intros w. apply StringHash_from_poly. reflexivity.
  - intros a b. apply strcmp_zero_iff.
Qed.

Lemma FileID_key_laws : key_laws FileIDs.FileIDHasher FileIDs.FileIDComparator.
Proof.
  apply (key_laws_of_key (fun id => (FileIDs.device id, FileIDs.inode id))
           (fun k => (31 * to_size_t (fst k) mod SIZE_MAX_plus_1
                      * to_size_t (snd k)) mod SIZE_MAX_plus_1)).
  - intros id. reflexivity.
  - apply FileIDComparator_zero.
Qed.

End Callbacks.

(** * The properties on the tables of [test.c] *)

Section Samples.

Import Items.

Lemma ItemCompare_zero a b : ItemCompare a b = 0%Z <-> index a = index b.
Proof.
  unfold ItemCompare.
  destruct (N.ltb_spec (index a) (index b));
    destruct (N.ltb_spec (index b) (index a));
    split; intros; try discriminate; try lia; reflexivity.
Qed.

Lemma Item_key_laws : key_laws ItemHash ItemCompare.
Proof.
  split.
  - intros a. apply ItemCompare_zero. reflexivity.
  - intros a b. rewrite !ItemCompare_zero. congruence.
  - intros a b c. rewrite !ItemCompare_zero. congruence.
  - intros a b. rewrite ItemCompare_zero. unfold ItemHash. congruence.
Qed.

Lemma HashSetNew_10_wf : HashSet_wf (HashSetNew 10 ItemHash ItemCompare).
Proof. split; [change (1 <= 10); lia|reflexivity]. Qed.

Lemma sample_wf : HashSet_wf sample.
Proof. split; [change (1 <= 10); lia|reflexivity]. Qed.

Lemma crowded_wf : HashSet_wf crowded.
Proof. split; [change (1 <= 10); lia|reflexivity]. Qed.

Lemma crowded_inv : HashSet_inv crowded.
Proof.
  apply (reachable_inv ItemHash ItemCompare); [exact Item_key_laws|].
  unfold crowded, sample. repeat apply reach_add. apply reach_new. lia.
Qed.

(** The tables are what [test.c] expects them to be. *)
Example sample_elements :
  elements sample = [[i6000]; [i1]; []; [i273]; []; []; []; []; []; []].
Proof. reflexivity. Qed.

Example crowded_elements :
  elements crowded = [[i6000]; [i1; i11]; []; [i273]; []; []; []; []; []; []].
Proof. reflexivity. Qed.

(** [TestSparseArray]: the three items are found, key 2 is not. *)
Example TestSparseArray :
  HashSetContains sample i1 = true /\
  HashSetContains sample i273 = true /\
  HashSetContains sample i6000 = true /\
  HashSetContains sample (probe 2) = false.
Proof. repeat split. Qed.

(** [TestAddUpdates]: after the update of key 1 the lookup finds the
    new item and the iteration still counts three elements. *)
Example TestAddUpdates :
  HashSetGet (HashSetAdd sample i1_new) (probe 1) = Some i1_new /\
  fst (HashSetIteratorNext_n 4 (HashSetAdd sample i1_new)
         (HashSetIteratorNew (HashSetAdd sample i1_new))) =
    [Some i6000; Some i1_new; Some i273; None].
Proof. split; reflexivity. Qed.

(** ** The theorems at work *)

Lemma HashSetAdd_keys_unique_witness :
  1 <= 10 /\ key_laws ItemHash ItemCompare /\
  let s := fold_left HashSetAdd [i1; i273; i6000; i11]
             (HashSetNew 10 ItemHash ItemCompare) in
  (key_count ItemCompare (probe 1) (all_elements s) <= 1)%nat /\
  length (all_elements (HashSetAdd s i1_new)) = length (all_elements s) /\
  HashSetGet (HashSetAdd s i1_new) i1_new = Some i1_new.
Proof.
  assert (Hn : 1 <= 10) by lia.
  split; [exact Hn|]. split; [exact Item_key_laws|].
  destruct (HashSetAdd_keys_unique 10 ItemHash ItemCompare
              [i1; i273; i6000; i11] Hn Item_key_laws)
    as (Hunique & _ & Hadd).
  split; [exact (Hunique (probe 1))|].
  assert (Hex : Exists (fun x => ItemCompare x i1_new = 0%Z)
                  (all_elements
                     (fold_left HashSetAdd [i1; i273; i6000; i11]
                        (HashSetNew 10 ItemHash ItemCompare)))).
  { apply Exists_exists. exists i1. split; [|reflexivity].
    apply (list_elem_of_lookup_2 _ 1%nat). reflexivity. }
  destruct (Hadd i1_new Hex) as (Hlen & _ & _ & Hget).
  split; [exact Hlen|exact Hget].
Defined.

Lemma HashSetGet_after_Add_witness :
  let s := HashSetNew 10 ItemHash ItemCompare in
  HashSet_wf s /\ key_laws (hasher s) (comparator s) /\
  comparator s i1 (probe 1) = 0%Z /\
  HashSetGet (HashSetAdd s i1) (probe 1) = Some i1 /\
  HashSetGet (fold_left HashSetAdd [i273; i1_new] (HashSetAdd s i1)) (probe 1)
    = Some i1_new.
Proof.
  intros s.
  assert (Hwf : HashSet_wf s) by (split; [change (1 <= 10); lia|reflexivity]).
  assert (Hep : comparator s i1 (probe 1) = 0%Z) by reflexivity.
  split; [exact Hwf|]. split; [exact Item_key_laws|]. split; [exact Hep|].
  destruct (HashSetGet_after_Add s i1 (probe 1) [i273; i1_new]
              Hwf Item_key_laws Hep) as (Hget & _ & Hlater & _).
  split; [exact Hget|exact Hlater].
Defined.

Lemma HashSetRemove_complete_witness :
  HashSet_inv crowded /\ i1 ∈ all_elements crowded /\
  comparator crowded i1 (probe 1) = 0%Z /\
  comparator crowded i1 i1_new = 0%Z /\
  HashSetContains (HashSetRemove crowded (probe 1)) i1_new = false /\
  S (length (all_elements (HashSetRemove crowded (probe 1)))) =
    length (all_elements crowded).
Proof.
  assert (Hin : i1 ∈ all_elements crowded)
    by (apply (list_elem_of_lookup_2 _ 1%nat); reflexivity).
  assert (Hp : comparator crowded i1 (probe 1) = 0%Z) by reflexivity.
  assert (Hp' : comparator crowded i1 i1_new = 0%Z) by reflexivity.
  split; [exact crowded_inv|]. split; [exact Hin|].
  split; [exact Hp|]. split; [exact Hp'|].
  destruct (HashSetRemove_complete crowded i1 (probe 1) i1_new
              crowded_inv Hin Hp Hp') as (Hcontains & _ & _ & Hlen & _).
  split; [exact Hcontains|exact Hlen].
Defined.

Lemma HashSetAdd_replaces_match_witness :
  HashSet_wf crowded /\
  Exists (fun y => comparator crowded y (mkItem 11 "XI") = 0%Z)
    (elements_at crowded (hash_of crowded (mkItem 11 "XI"))) /\
  exists l1 x l2,
    elements_at crowded 1 = l1 ++ x :: l2 /\
    elements_at (HashSetAdd crowded (mkItem 11 "XI")) 1 =
      l1 ++ mkItem 11 "XI" :: l2.
Proof.
  assert (Hwf : HashSet_wf crowded)
    by (split; [change (1 <= 10); lia|reflexivity]).
  assert (Hex : Exists (fun y => comparator crowded y (mkItem 11 "XI") = 0%Z)
                  (elements_at crowded (hash_of crowded (mkItem 11 "XI")))).
  { apply Exists_exists. exists i11. split; [|reflexivity].
    apply (list_elem_of_lookup_2 _ 1%nat). reflexivity. }
  split; [exact Hwf|]. split; [exact Hex|].
  destruct (HashSetAdd_replaces_match crowded (mkItem 11 "XI") Hwf Hex)
    as (l1 & x & l2 & Hch & _ & _ & Hnew & _).
  exists l1, x, l2. split; [exact Hch|exact Hnew].
Defined.

Lemma HashSetAdd_appends_new_witness :
  HashSet_wf sample /\
  Forall (fun y => comparator sample y i11 <> 0%Z)
    (elements_at sample (hash_of sample i11)) /\
  elements_at (HashSetAdd sample i11) (hash_of sample i11) =
    elements_at sample (hash_of sample i11) ++ [i11].
Proof.
  assert (Hwf : HashSet_wf sample)
    by (split; [change (1 <= 10); lia|reflexivity]).
  assert (Hall : Forall (fun y => comparator sample y i11 <> 0%Z)
                   (elements_at sample (hash_of sample i11))).
  { apply Forall_cons. split; [discriminate|apply Forall_nil; exact I]. }
  split; [exact Hwf|]. split; [exact Hall|].
  exact (proj1 (HashSetAdd_appends_new sample i11 Hwf Hall)).
Defined.

Lemma HashSetIterator_yields_all_witness :
  HashSet_wf crowded /\
  fst (HashSetIteratorNext_n 5 crowded (HashSetIteratorNew crowded)) =
    [Some i6000; Some i1; Some i11; Some i273; None].
Proof.
  assert (Hwf : HashSet_wf crowded)
    by (split; [change (1 <= 10); lia|reflexivity]).
  split; [exact Hwf|].
  exact (proj1 (HashSetIterator_yields_all crowded Hwf)).
Defined.

Lemma HashSetIteratorNext_stays_exhausted_witness :
  let i := {| bucket := 3; element := [] |} in
  fst (HashSetIteratorNext sample i) = None /\
  HashSetIteratorNext_n 2 (HashSetAdd sample i11)
    (snd (HashSetIteratorNext sample i)) =
  ([None; None], snd (HashSetIteratorNext sample i)).
Proof.
  intros i.
  assert (Hnone : fst (HashSetIteratorNext sample i) = None) by reflexivity.
  split; [exact Hnone|].
  destruct (HashSetIteratorNext_stays_exhausted sample i Hnone)
    as (_ & Hstay & _).
  exact (Hstay (HashSetAdd sample i11) 2%nat eq_refl).
Defined.

Lemma HashSetRemove_absent_noop_witness :
  HashSet_wf crowded /\
  Forall (fun y => comparator crowded y (probe 21) <> 0%Z)
    (elements_at crowded (hash_of crowded (probe 21))) /\
  HashSetRemove crowded (probe 21) = crowded.
Proof.
  assert (Hwf : HashSet_wf crowded)
    by (split; [change (1 <= 10); lia|reflexivity]).
  assert (Hall : Forall (fun y => comparator crowded y (probe 21) <> 0%Z)
                   (elements_at crowded (hash_of crowded (probe 21)))).
  { apply Forall_cons. split; [discriminate|].
    apply Forall_cons. split; [discriminate|apply Forall_nil; exact I]. }
  split; [exact Hwf|]. split; [exact Hall|].
  exact (HashSetRemove_absent_noop crowded (probe 21) Hwf Hall).
Defined.

Lemma operations_terminate_witness :
  HashSet_wf crowded /\
  HashSetGet_steps 3 crowded (probe 11) = Some (Some i11) /\
  HashSetIteratorNext_steps 8 crowded {| bucket := 3; element := [] |} =
    Some (None, {| bucket := 10; element := [] |}).
Proof.
  assert (Hwf : HashSet_wf crowded)
    by (split; [change (1 <= 10); lia|reflexivity]).
  split; [exact Hwf|].
  destruct (operations_terminate crowded (probe 11)
              {| bucket := 3; element := [] |} Hwf) as (Hwalk & Hnext & _).
  split.
  - exact (proj1 (Hwalk 3%nat (le_n 3))).
  - exact (Hnext 8%nat (le_n 8)).
Defined.

Lemma HashSetAdd_Remove_frame_witness :
  HashSet_wf crowded /\
  elements (HashSetAdd crowded i1_new) !! 3%nat = elements crowded !! 3%nat /\
  elements (HashSetRemove crowded i1_new) !! 0%nat = elements crowded !! 0%nat.
Proof.
  assert (Hwf : HashSet_wf crowded)
    by (split; [change (1 <= 10); lia|reflexivity]).
  split; [exact Hwf|].
  destruct (HashSetAdd_Remove_frame crowded i1_new Hwf)
    as ((_ & _ & _ & _ & Hadd) & (_ & _ & _ & _ & Hremove)).
  split.
  - apply Hadd. discriminate.
  - apply Hremove. discriminate.
Defined.

(** ** The callbacks of [test.c] *)

(** X17.  The three pairs of callbacks that [test.c] hands to
    [HashSetNew] keep the laws the table relies on: comparing equal is
    an equivalence, and elements that compare equal have the same
    hash. *)
Theorem test_callbacks_lawful :
  key_laws ItemHash ItemCompare /\
  key_laws Words.WordHash Words.WordCompare /\
  key_laws FileIDs.FileIDHasher FileIDs.FileIDComparator.
Proof.
  split; [exact Item_key_laws|].
  split; [exact Word_key_laws|exact FileID_key_laws].
Qed.

(** X18.  [FileIDComparator] orders by device first and by inode
    second: it returns [-1], [0] or [1] as the first key is below,
    equal to or above the second, and swapping the arguments negates
    the result. *)
Theorem FileIDComparator_order (a b : FileIDs.FileID) :
  let lt_key (x y : FileIDs.FileID) :=
    (FileIDs.device x < FileIDs.device y \/
     FileIDs.device x = FileIDs.device y /\
     FileIDs.inode x < FileIDs.inode y)%Z in
  (FileIDs.FileIDComparator a b = (-1)%Z <-> lt_key a b) /\
  (FileIDs.FileIDComparator a b = 1%Z <-> lt_key b a) /\
  (FileIDs.FileIDComparator a b = 0%Z <->
   FileIDs.device a = FileIDs.device b /\
   FileIDs.inode a = FileIDs.inode b) /\
  FileIDs.FileIDComparator b a = (- FileIDs.FileIDComparator a b)%Z.
Proof.
  intros lt_key. unfold lt_key, FileIDs.FileIDComparator.
  destruct (Z.ltb_spec (FileIDs.device a) (FileIDs.device b));
    destruct (Z.ltb_spec (FileIDs.device b) (FileIDs.device a));
    destruct (Z.ltb_spec (FileIDs.inode a) (FileIDs.inode b));
    destruct (Z.ltb_spec (FileIDs.inode b) (FileIDs.inode a));
    repeat split; intros; try discriminate; try reflexivity; lia.
Qed.




(** ** The further properties at work *)

Lemma HashSetGet_inserted_witness :
  1 <= 10 /\ key_laws ItemHash ItemCompare /\
  HashSetGet
    (fold_left HashSetAdd [i1; i273; i1_new]
       (HashSetNew 10 ItemHash ItemCompare)) (probe 1) = Some i1_new.
Proof.
  assert (Hn : 1 <= 10) by lia.
  split; [exact Hn|]. split; [exact Item_key_laws|].
  exact (proj1 (HashSetGet_inserted 10 ItemHash ItemCompare
                  [i1; i273; i1_new] (probe 1) Hn Item_key_laws)).
Defined.

Lemma HashSetNew_empty_witness :
  1 <= 500 /\
  all_elements
    (HashSetNew 500 FileIDs.FileIDHasher FileIDs.FileIDComparator) = [].
Proof.
  assert (Hn : 1 <= 500) by lia.
  split; [exact Hn|].
  destruct (HashSetNew_empty 500 FileIDs.FileIDHasher
              FileIDs.FileIDComparator Hn) as (_ & _ & _ & Hall & _).
  exact Hall.
Defined.

Lemma HashSetGet_Add_spec_witness :
  HashSet_wf sample /\ key_laws (hasher sample) (comparator sample) /\
  HashSetGet (HashSetAdd sample i1_new) (probe 1) = Some i1_new /\
  HashSetGet (HashSetAdd sample i1_new) (probe 273) =
    HashSetGet sample (probe 273).
Proof.
  assert (Hwf : HashSet_wf sample)
    by (split; [change (1 <= 10); lia|reflexivity]).
  split; [exact Hwf|]. split; [exact Item_key_laws|]. split.
  - exact (HashSetGet_Add_spec sample i1_new (probe 1) Hwf Item_key_laws).
  - exact (HashSetGet_Add_spec sample i1_new (probe 273) Hwf Item_key_laws).
Defined.

Lemma HashSetGet_Remove_spec_witness :
  HashSet_inv crowded /\
  HashSetGet (HashSetRemove crowded (probe 1)) i1_new = None /\
  HashSetGet (HashSetRemove crowded (probe 1)) (probe 11) =
    HashSetGet crowded (probe 11).
Proof.
  split; [exact crowded_inv|]. split.
  - exact (proj1 (HashSetGet_Remove_spec crowded (probe 1) i1_new
                    crowded_inv)).
  - exact (proj1 (HashSetGet_Remove_spec crowded (probe 1) (probe 11)
                    crowded_inv)).
Defined.

Lemma HashSetGet_searches_table_witness :
  HashSet_inv crowded /\
  HashSetGet crowded (probe 11) =
    List.find (matches (comparator crowded) (probe 11)) (all_elements crowded).
Proof.
  split; [exact crowded_inv|].
  exact (proj1 (HashSetGet_searches_table crowded (probe 11) crowded_inv)).
Defined.

Lemma HashSetAdd_idempotent_witness :
  HashSet_wf sample /\ comparator sample i1_new i1_new = 0%Z /\
  HashSetAdd (HashSetAdd sample i1_new) i1_new = HashSetAdd sample i1_new.
Proof.
  assert (Hwf : HashSet_wf sample)
    by (split; [change (1 <= 10); lia|reflexivity]).
  assert (Hee : comparator sample i1_new i1_new = 0%Z) by reflexivity.
  split; [exact Hwf|]. split; [exact Hee|].
  exact (HashSetAdd_idempotent sample i1_new Hwf Hee).
Defined.

Lemma HashSetRemove_Add_cancel_witness :
  HashSet_wf sample /\ comparator sample i11 i11 = 0%Z /\
  Forall (fun y => comparator sample y i11 <> 0%Z)
    (elements_at sample (hash_of sample i11)) /\
  HashSetRemove (HashSetAdd sample i11) i11 = sample.
Proof.
  assert (Hwf : HashSet_wf sample)
    by (split; [change (1 <= 10); lia|reflexivity]).
  assert (Hee : comparator sample i11 i11 = 0%Z) by reflexivity.
  assert (Hall : Forall (fun y => comparator sample y i11 <> 0%Z)
                   (elements_at sample (hash_of sample i11))).
  { apply Forall_cons. split; [discriminate|apply Forall_nil; exact I]. }
  split; [exact Hwf|]. split; [exact Hee|]. split; [exact Hall|].
  exact (HashSetRemove_Add_cancel sample i11 Hwf Hee Hall).
Defined.


Lemma HashSetRemove_idempotent_witness :
  HashSet_inv crowded /\
  HashSetRemove (HashSetRemove crowded (probe 1)) (probe 1) =
    HashSetRemove crowded (probe 1).
Proof.
  split; [exact crowded_inv|].
  exact (HashSetRemove_idempotent crowded (probe 1) crowded_inv).
Defined.

Lemma HashSetRemove_all_inserted_witness :
  1 <= 10 /\ key_laws ItemHash ItemCompare /\
  fold_left HashSetRemove [i1; i273; i1_new; i11]
    (fold_left HashSetAdd [i1; i273; i1_new; i11]
       (HashSetNew 10 ItemHash ItemCompare)) =
  HashSetNew 10 ItemHash ItemCompare.
Proof.
  assert (Hn : 1 <= 10) by lia.
  split; [exact Hn|]. split; [exact Item_key_laws|].
  exact (HashSetRemove_all_inserted 10 ItemHash ItemCompare
           [i1; i273; i1_new; i11] Hn Item_key_laws).
Defined.

Lemma HashSetAdd_distinct_keys_witness :
  1 <= 10 /\ chain_unique ItemCompare [i1; i11; i273] /\
  length
    (all_elements
       (fold_left HashSetAdd [i1; i11; i273]
          (HashSetNew 10 ItemHash ItemCompare))) = 3%nat.
Proof.
  assert (Hn : 1 <= 10) by lia.
  assert (Hun : chain_unique ItemCompare [i1; i11; i273]).
  { cbn. repeat split; repeat (apply Forall_cons; split);
      try (apply Forall_nil; exact I); discriminate. }
  split; [exact Hn|]. split; [exact Hun|].
  exact (proj1 (proj2 (HashSetAdd_distinct_keys 10 ItemHash ItemCompare
                         [i1; i11; i273] Hn Hun))).
Defined.

Lemma HashSetIteratorNext_any_calls_witness :
  HashSet_wf crowded /\
  fst (HashSetIteratorNext_n 2 crowded (HashSetIteratorNew crowded)) =
    [Some i6000; Some i1] /\
  fst (HashSetIteratorNext_n 6 crowded (HashSetIteratorNew crowded)) =
    [Some i6000; Some i1; Some i11; Some i273; None; None].
Proof.
  assert (Hwf : HashSet_wf crowded)
    by (split; [change (1 <= 10); lia|reflexivity]).
  split; [exact Hwf|]. split.
  - exact (HashSetIteratorNext_any_calls crowded 2 Hwf).
  - exact (HashSetIteratorNext_any_calls crowded 6 Hwf).
Defined.

Lemma run_ops_invariant_witness :
  1 <= 10 /\ key_laws ItemHash ItemCompare /\
  count (run_ops [OpAdd i1; OpRemove (probe 1); OpAdd i11; OpAdd i1_new]
           (HashSetNew 10 ItemHash ItemCompare)) = 10 /\
  placed (run_ops [OpAdd i1; OpRemove (probe 1); OpAdd i11; OpAdd i1_new]
            (HashSetNew 10 ItemHash ItemCompare)).
Proof.
  assert (Hn : 1 <= 10) by lia.
  split; [exact Hn|]. split; [exact Item_key_laws|].
  destruct (run_ops_invariant 10 ItemHash ItemCompare
              [OpAdd i1; OpRemove (probe 1); OpAdd i11; OpAdd i1_new]
              Hn Item_key_laws) as (Hcount & _ & _ & _ & Hplaced & _).
  split; [exact Hcount|exact Hplaced].
Defined.

Lemma HashSet_refines_model_witness :
  1 <= 10 /\ key_laws ItemHash ItemCompare /\
  HashSetGet
    (run_ops [OpAdd i1; OpAdd i11; OpRemove (probe 1); OpAdd i1_new]
       (HashSetNew 10 ItemHash ItemCompare)) (probe 1) =
  model_get ItemCompare (probe 1)
    (run_model ItemCompare
       [OpAdd i1; OpAdd i11; OpRemove (probe 1); OpAdd i1_new]).
Proof.
  assert (Hn : 1 <= 10) by lia.
  split; [exact Hn|]. split; [exact Item_key_laws|].
  exact (HashSet_refines_model 10 ItemHash ItemCompare
           [OpAdd i1; OpAdd i11; OpRemove (probe 1); OpAdd i1_new]
           (probe 1) Hn Item_key_laws).
Defined.

Lemma StringHash_polynomial_witness :
  Util.c_str "cat" = Util.c_str ("cat" ++ String Ascii.zero "dog") /\
  Util.StringHash "cat" = Util.StringHash ("cat" ++ String Ascii.zero "dog").
Proof.
  assert (Heq : Util.c_str "cat" =
                Util.c_str ("cat" ++ String Ascii.zero "dog")) by reflexivity.
  split; [exact Heq|].
  destruct (StringHash_polynomial "cat") as (_ & _ & _ & Hsame).
  exact (Hsame _ Heq).
Defined.



(** [TestDictionary]: both words are found under their key, with the
    definitions that were stored. *)
Example TestDictionary :
  let cat := Words.mkWord "cat" "A fine animal indeed" in
  let dog := Words.mkWord "dog" "A friend who likes to play frisbee" in
  let set :=
    HashSetAdd
      (HashSetAdd (HashSetNew 10 Words.WordHash Words.WordCompare) cat) dog in
  HashSetContains set (Words.mkWord "cat" "") = true /\
  HashSetContains set (Words.mkWord "dog" "") = true /\
  HashSetGet set (Words.mkWord "cat" "") = Some cat /\
  HashSetGet set (Words.mkWord "dog" "") = Some dog.
Proof. repeat split. Qed.

End Samples.
